(** * Melody matching engine (backend/melody_matcher.py)

    A shallow embedding of the pitch cleaning stages, the contour
    extractor, the banded dynamic-time-warping matcher, the signature
    store with its persistence, and the humming matcher, followed by the
    properties of the specification that concern them.

    Numeric conventions.  A Python or NumPy float is an exact rational
    ([Q]) or positive infinity ([xfloat]); a missing pitch frame (NaN in
    the pitch arrays) is [None] in a [list (option Q)].  All sums formed
    by the matcher are small integers, which binary64 represents exactly;
    the two divisions ([table(n,m) / (n + m)] and [1 / (1 + d)]) are
    taken exactly, and the bounds and the order proved of them are kept
    by rounding to nearest.
    The moving average of the contour extractor and the linear
    interpolation of the gap filler are taken exactly as well, where
    NumPy rounds every operation to binary64; a smoothed difference
    that lies at the threshold can therefore be classified differently
    by the code.  Of these two computations only what does not depend on
    the rounding is stated below: lengths, the three contour values, the
    runs of a contour, which frames are filled and between which values.
    Contours are [int8] arrays: their elements are integers and the one
    product taken on them wraps to 8 bits. *)

From Stdlib Require Import ZArith QArith Lia Lqa.
From stdpp Require Import base option list sorting strings gmap.

Local Open Scope Z_scope.

(** ** Floats with infinity *)

Inductive xfloat : Type :=
  | Finite (q : Q)
  | PosInf.

Definition Qlt_bool (p q : Q) : bool := negb (Qle_bool q p).

Definition xlt_bool (a b : xfloat) : bool :=
  match a, b with
  | Finite p, Finite q => Qlt_bool p q
  | Finite _, PosInf => true
  | PosInf, _ => false
  end.

Definition xadd (a b : xfloat) : xfloat :=
  match a, b with
  | Finite p, Finite q => Finite (p + q)
  | _, _ => PosInf
  end.

(** Python's built-in [min] keeps the first of several minimal arguments. *)
Definition xmin (a b : xfloat) : xfloat := if xlt_bool b a then b else a.
Definition xmin3 (a b c : xfloat) : xfloat := xmin (xmin a b) c.

(** Division of a float by a positive integer. *)
Definition xdiv_int (a : xfloat) (k : Z) : xfloat :=
  match a with
  | Finite p => Finite (p / inject_Z k)
  | PosInf => PosInf
  end.

Definition is_finite (a : xfloat) : Prop :=
  match a with Finite _ => True | PosInf => False end.

(** Order on floats, infinity on top. *)
Definition xle (a b : xfloat) : Prop :=
  match a, b with
  | Finite p, Finite q => (p <= q)%Q
  | _, PosInf => True
  | PosInf, Finite _ => False
  end.

(** Python's [range(a, b)]. *)
Definition range (a b : Z) : list Z := seqZ a (b - a).

(** Reading a list at a non-negative index that is in range. *)
Definition zget {A} (d : A) (l : list A) (i : Z) : A :=
  default d (l !! Z.to_nat i).

(** Exceptions and fallible results. *)

Inductive exn : Type :=
  | ValueError (msg : string)
  | TypeError (msg : string)
  | UnpicklingError (msg : string)
  | LoadError (path : string).

Inductive result (A : Type) : Type :=
  | Ok (a : A)
  | Raise (e : exn).
Arguments Ok {A} a.
Arguments Raise {A} e.

(** An exception raised by a step aborts the steps after it. *)
#[global] Instance result_bind : MBind result := λ A B k r,
  match r with
  | Ok a => k a
  | Raise e => Raise e
  end.

Definition int8_wrap (z : Z) : Z := (z + 128) mod 256 - 128.

(** [np.where(mask)[0]]: the indices at which a boolean array is true. *)
Fixpoint where_from (i : Z) (mask : list bool) : list Z :=
  match mask with
  | [] => []
  | b :: rest => (if b then [i] else []) ++ where_from (i + 1) rest
  end.
Definition np_where (mask : list bool) : list Z := where_from 0 mask.

(** A stable insertion sort on a boolean strict order; [insert_by] puts
    the new element after every element that is not greater. *)
Fixpoint insert_by {A} (lt : A → A → bool) (x : A) (l : list A) : list A :=
  match l with
  | [] => [x]
  | y :: r => if lt x y then x :: y :: r else y :: insert_by lt x r
  end.

Definition sort_by {A} (lt : A → A → bool) (l : list A) : list A :=
  foldl (λ acc x, insert_by lt x acc) [] l.

(** ** MelodySignature *)

Record MelodySignature : Type := mkSignature {
  pitch_contour : list Z;
  pitch_values : list (option Q);
  song_id : string;
  duration : Q
}.

(** ** PitchExtractor *)

Module PitchExtractor.

(** One analysis frame as returned by [librosa.pyin]: the three parallel
    arrays [f0], [voiced_flag], [voiced_probs], zipped. *)
Record frame : Type := mkFrame {
  f0 : option Q;
  voiced_flag : bool;
  voiced_probs : Q
}.

Definition isnan (x : option Q) : bool :=
  match x with None => true | Some _ => false end.

(** [np.interp(x, [x0, x1], [y0, y1])] for [x0 < x < x1]: the slope
    times the offset, plus [y0], taken exactly (NumPy rounds each of the
    operations). *)
Definition np_interp (x x0 x1 : Z) (y0 y1 : option Q) : option Q :=
  match y0, y1 with
  | Some a, Some b =>
      Some (Qred ((b - a) / inject_Z (x1 - x0) * inject_Z (x - x0) + a))
  | _, _ => None
  end.

(** Body of the loop over the positions of [nans_idx]. *)
Definition interpolate_step (max_gap : Z) (nans_idx not_nans_idx : list Z)
    (pitch : list (option Q)) (i : Z) : list (option Q) :=
  if (i =? 0) || (i =? Z.of_nat (length nans_idx) - 1) then pitch
  else
    let k := zget 0 nans_idx i in
    let prev_valid := List.filter (λ v, v <? k) not_nans_idx in
    let next_valid := List.filter (λ v, k <? v) not_nans_idx in
    match last prev_valid, head next_valid with
    | Some p, Some nx =>
        let gap_size := nx - p in
        if gap_size <=? max_gap
        then <[Z.to_nat k := np_interp k p nx (zget None pitch p) (zget None pitch nx)]> pitch
        else pitch
    | _, _ => pitch
    end.

Definition _interpolate_gaps (pitch : list (option Q)) (max_gap : Z) : list (option Q) :=
  let nans := map isnan pitch in
  if negb (existsb id nans) then pitch
  else
    let nans_idx := np_where nans in
    let not_nans_idx := np_where (map negb nans) in
    if (length not_nans_idx <? 2)%nat then pitch
    else foldl (interpolate_step max_gap nans_idx not_nans_idx) pitch
           (range 0 (Z.of_nat (length nans_idx))).

(** [scipy.signal.medfilt] on a one-dimensional array: the kernel size
    must be odd (and positive, to be the shape of a window); the array
    is padded with zeros; each output is the element of rank
    [kernel_size // 2] of its window. *)
Definition padded (volume : list Q) (i : Z) : Q :=
  if (0 <=? i) && (i <? Z.of_nat (length volume)) then zget 0%Q volume i else 0%Q.

Definition medfilt_at (volume : list Q) (kernel_size : Z) (k : Z) : Q :=
  let half := kernel_size / 2 in
  let window := map (λ d, padded volume (k - half + d)) (range 0 kernel_size) in
  zget 0%Q (sort_by Qlt_bool window) half.

Definition medfilt (volume : list Q) (kernel_size : Z) : result (list Q) :=
  if negb (kernel_size mod 2 =? 1)
  then Raise (ValueError "Each element of kernel_size should be odd.")
  else if kernel_size <? 0
  then Raise (ValueError "negative dimensions are not allowed")
  else Ok (map (medfilt_at volume kernel_size) (range 0 (Z.of_nat (length volume)))).

(** [pitch_filtered[valid_idx] = values]: write the values, in order, to
    the positions that hold a number. *)
Fixpoint assign_valid (pitch : list (option Q)) (values : list Q) : list (option Q) :=
  match pitch with
  | [] => []
  | None :: rest => None :: assign_valid rest values
  | Some x :: rest =>
      match values with
      | v :: vs => Some v :: assign_valid rest vs
      | [] => Some x :: assign_valid rest []
      end
  end.

Definition valid_values (pitch : list (option Q)) : list Q := omap id pitch.

Definition _median_filter (pitch : list (option Q)) (window : Z) : result (list (option Q)) :=
  let valid := valid_values pitch in
  if window <? Z.of_nat (length valid)
  then filtered ← medfilt valid window ; Ok (assign_valid pitch filtered)
  else Ok pitch.

Definition _clean_pitch (frames : list frame) (confidence_threshold : Q)
    : result (list (option Q)) :=
  let pitch :=
    map (λ fr, if Qlt_bool (voiced_probs fr) confidence_threshold || negb (voiced_flag fr)
               then None else f0 fr) frames in
  let pitch := _interpolate_gaps pitch 5 in
  _median_filter pitch 5.

Section Extract.
(** Decoding the audio file and tracking its pitch ([librosa.load]
    followed by [librosa.pyin]) lie outside the module; they either
    raise or deliver the frames. *)
Variable pyin : string → option Q → result (list frame).

Definition extract_pitch (audio_path : string) (duration : option Q)
    : result (list (option Q)) :=
  frames ← pyin audio_path duration ;
  _clean_pitch frames (3 # 10).
End Extract.

End PitchExtractor.

(** ** ContourExtractor *)

Module ContourExtractor.

Record params : Type := mkParams {
  pitch_threshold : Q;
  smoothing_window : Z
}.

Definition defaults : params :=
  {| pitch_threshold := 10; smoothing_window := 3 |}.

(** [np.convolve(pitch, np.ones(w) / w, mode='same')] for [1 <= w <= len(pitch)]:
    entry [k] is entry [k + (w - 1) // 2] of the full convolution.  A
    negative [w] is refused by [np.ones], and [w = 0] gives an empty
    kernel, which [np.convolve] refuses, after it has refused an empty
    first argument.  The kernel entry [1 / w] and the sum are taken
    exactly (NumPy rounds each of them). *)
Definition convolve_same_at (pitch : list Q) (w : Z) (k : Z) : Q :=
  let t := k + (w - 1) / 2 in
  foldl (λ acc j,
           if (0 <=? t - j) && (t - j <? w)
           then (acc + zget 0%Q pitch j * (1 / inject_Z w))%Q else acc)
        0%Q (range 0 (Z.of_nat (length pitch))).

Definition _smooth_pitch (self : params) (pitch : list Q) : result (list Q) :=
  let w := smoothing_window self in
  if Z.of_nat (length pitch) <? w then Ok pitch
  else if w <? 0 then Raise (ValueError "negative dimensions are not allowed")
  else if w =? 0
  then Raise (ValueError (if (length pitch =? 0)%nat
                          then "a cannot be empty" else "v cannot be empty"))
  else Ok (map (convolve_same_at pitch w) (range 0 (Z.of_nat (length pitch)))).

(** [np.diff] on floats and on [int8] values. *)
Definition np_diff (l : list Q) : list Q :=
  zip_with (λ a b, (b - a)%Q) l (tail l).
Definition np_diff_int8 (l : list Z) : list Z :=
  zip_with (λ a b, int8_wrap (b - a)) l (tail l).

Definition classify (self : params) (d : Q) : Z :=
  if Qlt_bool d (- pitch_threshold self) then -1
  else if Qlt_bool (pitch_threshold self) d then 1
  else 0.

(** [l[a:b]] for indices [0 <= a]. *)
Definition slice {A} (l : list A) (a b : Z) : list A :=
  take (Z.to_nat (b - a)) (drop (Z.to_nat a) l).

(** [np.split(l, idxs)]: the pieces between successive indices. *)
Fixpoint split_from {A} (prev : Z) (l : list A) (idxs : list Z) : list (list A) :=
  match idxs with
  | [] => [drop (Z.to_nat prev) l]
  | i :: rest => slice l prev i :: split_from i l rest
  end.
Definition np_split {A} (l : list A) (idxs : list Z) : list (list A) :=
  split_from 0 l idxs.

(** Body of the loop over the segments. *)
Definition merge_step (min_duration : Z) (result : list Z) (segment : list Z) : list Z :=
  if min_duration <=? Z.of_nat (length segment) then result ++ segment
  else match last result with
       | Some prev => result ++ replicate (length segment) prev
       | None => result ++ segment
       end.

Definition _smooth_contour (contour : list Z) (min_duration : Z) : list Z :=
  if Z.of_nat (length contour) <? min_duration then contour
  else
    let changes := np_diff_int8 contour in
    let change_idx := map (λ i, i + 1) (np_where (map (λ c, negb (c =? 0)) changes)) in
    let segments := np_split contour change_idx in
    foldl (merge_step min_duration) [] segments.

Definition extract_contour (self : params) (pitch : list (option Q)) : result (list Z) :=
  let pitch_valid := PitchExtractor.valid_values pitch in
  if (length pitch_valid <? 2)%nat then Ok []
  else
    pitch_smooth ← _smooth_pitch self pitch_valid ;
    let pitch_diff := np_diff pitch_smooth in
    let contour := map (classify self) pitch_diff in
    Ok (_smooth_contour contour 2).

End ContourExtractor.

(** ** DTWMatcher *)

Module DTWMatcher.

Definition _contour_distance (a b : Z) : xfloat :=
  if a =? b then Finite 0
  else if int8_wrap (a * b) =? -1 then Finite 2
  else Finite 1.

Abbreviation matrix := (list (list xfloat)).

(** [np.full((rows, cols), v)] *)
Definition full (rows cols : Z) (v : xfloat) : matrix :=
  replicate (Z.to_nat rows) (replicate (Z.to_nat cols) v).

Definition mget (M : matrix) (i j : Z) : xfloat :=
  default PosInf (M !! Z.to_nat i ≫= (.!! Z.to_nat j)).

Definition mset (M : matrix) (i j : Z) (v : xfloat) : matrix :=
  alter (<[Z.to_nat j := v]>) (Z.to_nat i) M.

(** Body of the inner loop: one application of the recurrence. *)
Definition dtw_cell (query reference : list Z) (M : matrix) (i j : Z) : matrix :=
  let cost := _contour_distance (zget 0 query (i - 1)) (zget 0 reference (j - 1)) in
  mset M i j
    (xadd cost (xmin3 (mget M (i - 1) j) (mget M i (j - 1)) (mget M (i - 1) (j - 1)))).

(** Body of the outer loop: the cells of row [i] inside the band. *)
Definition dtw_row (query reference : list Z) (window m : Z) (M : matrix) (i : Z) : matrix :=
  let j_start := Z.max 1 (i - window) in
  let j_end := Z.min (m + 1) (i + window) in
  foldl (λ M j, dtw_cell query reference M i j) M (range j_start j_end).

Definition band_width (window_size : option Z) (n m : Z) : Z :=
  match window_size with
  | Some w => Z.max w (Z.abs (n - m))
  | None => Z.max n m
  end.

Definition dtw_table (window_size : option Z) (query reference : list Z) : matrix :=
  let n := Z.of_nat (length query) in
  let m := Z.of_nat (length reference) in
  let dtw_matrix := mset (full (n + 1) (m + 1) PosInf) 0 0 (Finite 0) in
  let window := band_width window_size n m in
  foldl (dtw_row query reference window m) dtw_matrix (range 1 (n + 1)).

Definition compute_distance (window_size : option Z) (query reference : list Z) : xfloat :=
  let n := Z.of_nat (length query) in
  let m := Z.of_nat (length reference) in
  if (n =? 0) || (m =? 0) then PosInf
  else xdiv_int (mget (dtw_table window_size query reference) n m) (n + m).

End DTWMatcher.


(** ** Persistence of signatures *)

(** What [pickle.load] may deliver: a signature object, a dictionary, or
    anything else.  The dictionary is kept to the four keys that
    [from_payload] reads, each absent or present.  The contour, the
    pitch values and the identifier are passed on as they are found, and
    are taken to be of the field's annotated type; the value under
    ['duration'] goes through [float(...)], which raises on a value that
    is no number: the field holds what [float] makes of the value, a
    number or the exception. *)
Record payload_dict : Type := mkPayloadDict {
  get_pitch_contour : option (list Z);
  get_pitch_values : option (list (option Q));
  get_song_id : option string;
  get_duration : option (result Q)
}.

Inductive payload : Type :=
  | PSignature (s : MelodySignature)
  | PDict (d : payload_dict)
  | POther.

(** A file: the pickle of a payload, or bytes that [pickle.load]
    refuses with an exception (a truncated or foreign file). *)
Inductive file : Type :=
  | Pickled (p : payload)
  | Unreadable (e : exn).

(** The files of the signature folder, by path. *)
Abbreviation filesystem := (gmap string file).

Definition save (self : MelodySignature) (file_path : string) (fs : filesystem) : filesystem :=
  let payload :=
    {| get_pitch_contour := Some (pitch_contour self);
       get_pitch_values := Some (pitch_values self);
       get_song_id := Some (song_id self);
       get_duration := Some (Ok (duration self)) |} in
  <[file_path := Pickled (PDict payload)]> fs.

Definition from_payload (p : payload) (song_id : string) : result MelodySignature :=
  match p with
  | PSignature s => Ok s
  | PDict d =>
      let pitch_contour := default [] (get_pitch_contour d) in
      let pitch_values := default [] (get_pitch_values d) in
      let song_id := default song_id (get_song_id d) in
      duration ← default (Ok 0%Q) (get_duration d);
      Ok {| pitch_contour := pitch_contour;
            pitch_values := pitch_values;
            song_id := song_id;
            duration := duration |}
  | POther => Raise (ValueError "Unsupported signature payload type")
  end.

(** ** MelodyDatabase *)

(** A Python dictionary with string keys: the items in insertion order;
    assigning to a present key replaces its value in place. *)
Fixpoint dict_get {V} (d : list (string * V)) (k : string) : option V :=
  match d with
  | [] => None
  | (k', v) :: rest => if String.eqb k' k then Some v else dict_get rest k
  end.

Fixpoint dict_set {V} (d : list (string * V)) (k : string) (v : V) : list (string * V) :=
  match d with
  | [] => [(k, v)]
  | (k', v') :: rest =>
      if String.eqb k' k then (k', v) :: rest else (k', v') :: dict_set rest k v
  end.

Module MelodyDatabase.

Record t : Type := mk { signatures : list (string * MelodySignature) }.

Definition empty : t := {| signatures := [] |}.

Definition get_signature (self : t) (song_id : string) : option MelodySignature :=
  dict_get (signatures self) song_id.

Definition list_songs (self : t) : list string := map fst (signatures self).

Definition load_signature (self : t) (song_id : string) (signature_path : string)
    (fs : filesystem) : t * result MelodySignature :=
  match fs !! signature_path with
  | None => (self, Raise (LoadError signature_path))
  | Some (Unreadable e) => (self, Raise e)
  | Some (Pickled p) =>
      match from_payload p song_id with
      | Raise e => (self, Raise e)
      | Ok signature =>
          let signature :=
            {| pitch_contour := pitch_contour signature;
               pitch_values := pitch_values signature;
               song_id := song_id;
               duration := duration signature |} in
          ({| signatures := dict_set (signatures self) song_id signature |}, Ok signature)
      end
  end.

Section AddSong.
Variable pyin : string → option Q → result (list PitchExtractor.frame).

(** The store after the call, and what the call returns or raises. *)
Definition add_song (self : t) (song_id : string) (audio_path : string)
    (duration : option Q) : t * result MelodySignature :=
  match PitchExtractor.extract_pitch pyin audio_path duration with
  | Raise e => (self, Raise e)
  | Ok pitch =>
      match ContourExtractor.extract_contour ContourExtractor.defaults pitch with
      | Raise e => (self, Raise e)
      | Ok contour =>
          let signature :=
            {| pitch_contour := contour;
               pitch_values := pitch;
               song_id := song_id;
               duration := default 0%Q duration |} in
          ({| signatures := dict_set (signatures self) song_id signature |}, Ok signature)
      end
  end.
End AddSong.

End MelodyDatabase.

(** ** HummingMatcher *)

Module HummingMatcher.

(** [l[:k]] *)
Definition prefix {A} (l : list A) (k : Z) : list A :=
  if 0 <=? k then take (Z.to_nat k) l
  else take (Z.to_nat (Z.of_nat (length l) + k)) l.

(** [1 / (1 + distance)] on NumPy floats. *)
Definition similarity_score (distance : xfloat) : xfloat :=
  match xadd (Finite 1) distance with
  | PosInf => Finite 0
  | Finite s => if Qeq_bool s 0 then PosInf else Finite (1 / s)
  end.

Record match_entry : Type := mkMatch {
  m_song_id : string;
  m_distance : xfloat;
  m_similarity_score : xfloat
}.

Record query_info : Type := mkQuery {
  pitch_length : nat;
  contour_length : nat;
  valid_pitch_ratio : Q
}.

Record details : Type := mkDetails {
  query : query_info;
  matches : list match_entry
}.

(** The loop of [match_humming] over the items of the store. *)
Definition score_all (contour : list Z) (database : MelodyDatabase.t)
    : list (string * xfloat) :=
  map (λ item : string * MelodySignature,
         (item.1, DTWMatcher.compute_distance (Some 50) contour (pitch_contour item.2)))
      (MelodyDatabase.signatures database).

Definition by_distance (x y : string * xfloat) : bool := xlt_bool x.2 y.2.

Section Matcher.
Variable pyin : string → option Q → result (list PitchExtractor.frame).

Definition extract (humming_path : string) : result (list (option Q) * list Z) :=
  pitch ← PitchExtractor.extract_pitch pyin humming_path None;
  contour ← ContourExtractor.extract_contour ContourExtractor.defaults pitch;
  Ok (pitch, contour).

Definition match_humming (database : MelodyDatabase.t) (humming_path : string)
    (top_k : Z) : result (list (string * xfloat)) :=
  pc ← extract humming_path;
  let contour := pc.2 in
  if (length contour =? 0)%nat
  then Raise (ValueError "Could not extract valid melody from humming")
  else
    let results := score_all contour database in
    let results := sort_by by_distance results in
    Ok (prefix results top_k).

Definition match_with_details (database : MelodyDatabase.t) (humming_path : string)
    : result details :=
  pc ← extract humming_path;
  let pitch := pc.1 in
  let contour := pc.2 in
  matches ← match_humming database humming_path 5;
  Ok {| query :=
          {| pitch_length := length pitch;
             contour_length := length contour;
             valid_pitch_ratio :=
               if (0 <? length pitch)%nat
               then (inject_Z (Z.of_nat (length (PitchExtractor.valid_values pitch)))
                     / inject_Z (Z.of_nat (length pitch)))%Q
               else 0%Q |};
        matches :=
          map (λ r : string * xfloat,
                 {| m_song_id := r.1;
                    m_distance := r.2;
                    m_similarity_score := similarity_score r.2 |})
              matches |}.
End Matcher.

End HummingMatcher.

(** * Vocabulary of the properties *)

Definition contour_value (a : Z) : Prop := a = -1 ∨ a = 0 ∨ a = 1.

(** Strict order on floats, infinity on top. *)
Definition xlt (a b : xfloat) : Prop :=
  match a, b with
  | Finite p, Finite q => (p < q)%Q
  | Finite _, PosInf => True
  | PosInf, _ => False
  end.

(** Membership of a float in the half-open interval (0, 1]. *)
Definition in_half_open_unit (s : xfloat) : Prop :=
  match s with
  | Finite q => (0 < q <= 1)%Q
  | PosInf => False
  end.

(** ** Invariants of the cost table *)

(** A cell is infinite or lies between 0 and twice [s]. *)
Definition cell_bounded (c : xfloat) (s : Z) : Prop :=
  match c with
  | PosInf => True
  | Finite v => (0 <= v <= 2 * inject_Z s)%Q
  end.

Definition table_bounded (M : list (list xfloat)) : Prop :=
  ∀ i j, 0 <= i → 0 <= j → cell_bounded (DTWMatcher.mget M i j) (i + j).

(** The cells that the two loops visit, for sequences of lengths [n]
    and [m]. *)
Definition in_band (n m window a b : Z) : Prop :=
  1 <= a <= n ∧ 1 <= b <= m ∧ a - window <= b < a + window.

(** The table has its [n + 1] rows of [m + 1] cells. *)
Definition allocated (n m : Z) (M : list (list xfloat)) : Prop :=
  ∀ a b, 0 <= a <= n → 0 <= b <= m →
    ∃ row, M !! Z.to_nat a = Some row ∧ (Z.to_nat b < length row)%nat.

(** The state of the table when the loops are about to write [(i, j)]:
    the corner and every cell of the band visited so far are finite. *)
Definition filled_before (n m window i j : Z) (M : list (list xfloat)) : Prop :=
  allocated n m M ∧ is_finite (DTWMatcher.mget M 0 0) ∧
  ∀ a b, in_band n m window a b → a < i ∨ (a = i ∧ b < j) →
    is_finite (DTWMatcher.mget M a b).

(** ** Invariants of the extractors *)

(** Split points that never go back. *)
Fixpoint increasing_from (prev : Z) (idxs : list Z) : Prop :=
  match idxs with
  | [] => True
  | i :: rest => prev <= i ∧ increasing_from i rest
  end.

(** What every state [cur] of the interpolation loop keeps of [pitch]:
    the length, and every frame except missing ones that lie between
    two nearest valid frames at most [max_gap] apart. *)
Definition untouched (pitch : list (option Q)) (max_gap : Z) (cur : list (option Q)) : Prop :=
  let not_nans_idx := np_where (map negb (map PitchExtractor.isnan pitch)) in
  length cur = length pitch ∧
  ∀ k : nat, cur !! k = pitch !! k ∨
    pitch !! k = Some None ∧
    ∃ p nx, p ∈ not_nans_idx ∧ nx ∈ not_nans_idx ∧ p < Z.of_nat k < nx
      ∧ (∀ q, q ∈ not_nans_idx → q < Z.of_nat k → q <= p)
      ∧ (∀ q, q ∈ not_nans_idx → Z.of_nat k < q → nx <= q)
      ∧ nx - p <= max_gap.

(** ** Ranking *)

Definition dist_le (x y : string * xfloat) : Prop := xle x.2 y.2.

(** Every earlier result is at most as far as every later one. *)
Definition ranked (results : list (string * xfloat)) : Prop :=
  ∀ (i j : nat) x y, (i < j)%nat → results !! i = Some x → results !! j = Some y →
    xle x.2 y.2.

(** ** A small catalogue for the examples *)

Module Demo.
Import PitchExtractor.

Definition voiced (hz : Z) : frame := mkFrame (Some (inject_Z hz)) true (9 # 10).
Definition unvoiced : frame := mkFrame None false 0.

(** Three recordings and nothing else: a hummed query, a song, and a
    track without any pitched content. *)
Definition pyin (audio_path : string) (duration : option Q) : result (list frame) :=
  if String.eqb audio_path "hum.wav"
  then Ok (map voiced [220; 247; 262; 294; 262; 220])
  else if String.eqb audio_path "song.wav"
  then Ok (map voiced [330; 370; 392; 440; 392; 330; 294; 330])
  else if String.eqb audio_path "silence.wav"
  then Ok (replicate 6 unvoiced)
  else Raise (LoadError audio_path).

(** The cleaned pitch of the query (six valid frames, so the median
    filter has run) and its contour. *)
Definition hum_pitch : list (option Q) :=
  map (λ hz, Some (inject_Z hz)) [220; 247; 262; 262; 262; 220].
Definition hum_contour : list Z := [1; 1; 1; -1; -1].

Definition one_song : MelodyDatabase.t :=
  (MelodyDatabase.add_song pyin MelodyDatabase.empty "song" "song.wav" (Some 30%Q)).1.

Definition catalogue : MelodyDatabase.t :=
  (MelodyDatabase.add_song pyin one_song "silent" "silence.wav" (Some 30%Q)).1.

End Demo.

(** What the matcher reports for the query against the catalogue. *)
Definition demo_details : HummingMatcher.details :=
  {| HummingMatcher.query :=
       {| HummingMatcher.pitch_length := 6;
          HummingMatcher.contour_length := 5;
          HummingMatcher.valid_pitch_ratio := 6 # 6 |};
     HummingMatcher.matches :=
       [HummingMatcher.mkMatch "song" (Finite (0 # 12)) (Finite (12 # 12));
        HummingMatcher.mkMatch "silent" PosInf (Finite 0)] |}.

(** * Vocabulary of the further properties *)

(** ** The diagonal of the cost table *)

(** The state of the diagonal when the loops are about to write
    [(i, j)]: every diagonal cell visited so far holds a zero. *)
Definition diagonal_zero_before (n i j : Z) (M : list (list xfloat)) : Prop :=
  ∀ a, 0 <= a <= n → a < i ∨ (a = i ∧ a < j) →
    ∃ v, DTWMatcher.mget M a a = Finite v ∧ (v == 0)%Q.

(** A window size as the constructor of the matcher may receive it, wide
    enough for the band to hold the diagonal. *)
Definition holds_diagonal (window_size : option Z) : Prop :=
  match window_size with
  | Some w => 1 <= w
  | None => True
  end.

(** ** Runs of a contour *)

(** A value that an [int8] array can hold. *)
Definition is_int8 (z : Z) : Prop := -128 <= z <= 127.

(** The maximal runs of equal values of [cur ++ x :: rest], where [cur]
    is the part already read of the run that [x] belongs to. *)
Fixpoint runs_from (cur : list Z) (x : Z) (rest : list Z) : list (list Z) :=
  match rest with
  | [] => [cur ++ [x]]
  | y :: rest' =>
      if x =? y then runs_from (cur ++ [x]) y rest'
      else (cur ++ [x]) :: runs_from [] y rest'
  end.

(** [changes != 0] in [_smooth_contour]. *)
Definition change_mask (contour : list Z) : list bool :=
  map (λ c, negb (c =? 0)) (ContourExtractor.np_diff_int8 contour).

(** Every change of value is followed by a second frame of the new
    value: every run but the first has two frames or more. *)
Definition settled (c : list Z) : Prop :=
  ∀ (k : nat) a b, c !! k = Some a → c !! S k = Some b → a ≠ b → c !! S (S k) = Some b.

(** ** Interpolated frames *)

(** [p] and [nx] are the valid frames nearest to frame [k], one on each
    side. *)
Definition nearest_valid (pitch : list (option Q)) (k p nx : Z) : Prop :=
  let not_nans_idx := np_where (map negb (map PitchExtractor.isnan pitch)) in
  p ∈ not_nans_idx ∧ nx ∈ not_nans_idx ∧ p < k < nx
  ∧ (∀ q, q ∈ not_nans_idx → q < k → q <= p)
  ∧ (∀ q, q ∈ not_nans_idx → k < q → nx <= q).

(** What every state [cur] of the interpolation loop holds: each frame
    is as in [pitch], or is a missing frame of [pitch] filled from its
    two nearest valid frames, at most [max_gap] apart. *)
Definition interpolated (pitch : list (option Q)) (max_gap : Z) (cur : list (option Q)) : Prop :=
  length cur = length pitch ∧
  ∀ k : nat, cur !! k = pitch !! k ∨
    pitch !! k = Some None ∧
    ∃ p nx yp yn,
      nearest_valid pitch (Z.of_nat k) p nx
      ∧ pitch !! Z.to_nat p = Some (Some yp)
      ∧ pitch !! Z.to_nat nx = Some (Some yn)
      ∧ nx - p <= max_gap
      ∧ cur !! k = Some (PitchExtractor.np_interp (Z.of_nat k) p nx (Some yp) (Some yn)).


(** ** The store and its callers *)

(** Every signature is stored under its own identifier. *)
Definition keys_consistent (db : MelodyDatabase.t) : Prop :=
  ∀ id signature, (id, signature) ∈ MelodyDatabase.signatures db → song_id signature = id.

(** The stores that [add_song] and [load_signature] build from the empty
    one, whether the calls succeed or fail. *)
Inductive reachable (pyin : string → option Q → result (list PitchExtractor.frame))
    : MelodyDatabase.t → Prop :=
  | reach_empty : reachable pyin MelodyDatabase.empty
  | reach_add db id audio_path dur :
      reachable pyin db →
      reachable pyin (MelodyDatabase.add_song pyin db id audio_path dur).1
  | reach_load db id signature_path fs :
      reachable pyin db →
      reachable pyin (MelodyDatabase.load_signature db id signature_path fs).1.

(** Why [load_signature] raises [e]: there is no file at the path, the
    file cannot be unpickled, the payload is neither a signature nor a
    dictionary, or the dictionary holds a duration that is no number. *)
Definition refused (fs : filesystem) (signature_path : string) (e : exn) : Prop :=
  (fs !! signature_path = None ∧ e = LoadError signature_path)
  ∨ fs !! signature_path = Some (Unreadable e)
  ∨ (fs !! signature_path = Some (Pickled POther)
     ∧ e = ValueError "Unsupported signature payload type")
  ∨ ∃ d, fs !! signature_path = Some (Pickled (PDict d)) ∧ get_duration d = Some (Raise e).

(** The records from which [load_signature] builds a signature: a
    pickled signature, or a dictionary whose duration is absent or a
    number; with the contour, pitch values and duration of the result. *)
Definition accepted (fs : filesystem) (signature_path : string)
    (signature : MelodySignature) : Prop :=
  (∃ s, fs !! signature_path = Some (Pickled (PSignature s))
        ∧ pitch_contour signature = pitch_contour s
        ∧ pitch_values signature = pitch_values s
        ∧ duration signature = duration s)
  ∨ ∃ d, fs !! signature_path = Some (Pickled (PDict d))
         ∧ pitch_contour signature = default [] (get_pitch_contour d)
         ∧ pitch_values signature = default [] (get_pitch_values d)
         ∧ (get_duration d = Some (Ok (duration signature))
            ∨ get_duration d = None ∧ duration signature = 0%Q).

(** The start-up loop of the server (App.py), for one audio file whose
    identifier is known: [DATABASE_FOLDER / f"{song_id}.sig"] is loaded
    when it exists; otherwise the song is added with the default analysis
    duration of 30 seconds and its signature is saved there. *)
Definition signature_path_of (song_id : string) : string :=
  ("database/" ++ song_id ++ ".sig")%string.

Definition load_or_add (pyin : string → option Q → result (list PitchExtractor.frame))
    (melody_db : MelodyDatabase.t) (fs : filesystem) (song_id file_path : string)
    : MelodyDatabase.t * filesystem * result MelodySignature :=
  let signature_path := signature_path_of song_id in
  match fs !! signature_path with
  | Some _ =>
      let '(melody_db, r) :=
        MelodyDatabase.load_signature melody_db song_id signature_path fs in
      (melody_db, fs, r)
  | None =>
      match MelodyDatabase.add_song pyin melody_db song_id file_path (Some 30%Q) with
      | (melody_db, Ok signature) =>
          (melody_db, save signature signature_path fs, Ok signature)
      | (melody_db, Raise e) => (melody_db, fs, Raise e)
      end
  end.

(** ** Ties in the ranking *)

(** The results that are neither nearer nor farther than [d]. *)
Definition same_distance (d : xfloat) (x : string * xfloat) : bool :=
  negb (xlt_bool x.2 d) && negb (xlt_bool d x.2).

(** ** The batch initialisation script (initialize_db.py) *)

(** An audio file of the database folder that has passed the filter on
    its suffix: its stem, its path as a string, and its name. *)
Record audio_file : Type := mkAudioFile {
  stem : string;
  file_path : string;
  file_name : string
}.

Record song_info : Type := mkSongInfo {
  title : string;
  artist : string;
  filename : string
}.

(** Body of the loop: the song is added under the stem of the file with
    the default analysis duration, and its metadata recorded; an
    exception is caught and reported, and the loop goes on. *)
Definition initialize_step (pyin : string → option Q → result (list PitchExtractor.frame))
    (state : MelodyDatabase.t * list (string * song_info)) (f : audio_file)
    : MelodyDatabase.t * list (string * song_info) :=
  let '(melody_db, song_metadata) := state in
  let song_id := stem f in
  match MelodyDatabase.add_song pyin melody_db song_id (file_path f) (Some 30%Q) with
  | (melody_db, Ok signature) =>
      (melody_db,
       dict_set song_metadata song_id
         {| title := song_id; artist := "Unknown"; filename := file_name f |})
  | (melody_db, Raise e) => (melody_db, song_metadata)
  end.

Definition initialize_db (pyin : string → option Q → result (list PitchExtractor.frame))
    (files : list audio_file) : MelodyDatabase.t * list (string * song_info) :=
  foldl (initialize_step pyin) (MelodyDatabase.empty, []) files.

(** The files whose audio can be decoded and tracked. *)
Definition analysable (pyin : string → option Q → result (list PitchExtractor.frame))
    (f : audio_file) : bool :=
  match pyin (file_path f) (Some 30%Q) with
  | Ok _ => true
  | Raise _ => false
  end.

(** * Properties *)

(** ** Generic facts on loops and arrays *)

Lemma foldl_invariant {A B} (P : A → Prop) (f : A → B → A) (l : list B) (a : A) :
  P a → (∀ a x, x ∈ l → P a → P (f a x)) → P (foldl f a l).
Proof.
  revert a. induction l as [|x l IH]; intros a Ha Hstep; simpl; [done|].
  apply IH.
  - apply Hstep; [left | done].
  - intros a' y Hy. apply Hstep. by right.
Qed.

Lemma foldl_range_invariant {A} (P : Z → A → Prop) (f : A → Z → A) (x : A) (a b : Z) :
  P a x → (∀ k y, a <= k < b → P k y → P (k + 1) (f y k)) →
  P (Z.max a b) (foldl f x (seqZ a (b - a))).
Proof.
  intros Ha Hstep.
  destruct (decide (b <= a)) as [Hle | Hlt].
  { rewrite seqZ_nil by lia. by replace (Z.max a b) with a by lia. }
  replace (Z.max a b) with b by lia.
  assert (∀ d : nat, a + Z.of_nat d <= b →
            P (a + Z.of_nat d) (foldl f x (seqZ a (Z.of_nat d)))) as Hall.
  { induction d as [|d IH]; intros Hd.
    - rewrite seqZ_nil by lia. simpl. by replace (a + Z.of_nat 0) with a by lia.
    - rewrite seqZ_S, foldl_app. simpl.
      replace (a + Z.of_nat (S d)) with (a + Z.of_nat d + 1) by lia.
      apply Hstep; [lia|]. apply IH. lia. }
  specialize (Hall (Z.to_nat (b - a)) ltac:(lia)).
  rewrite Z2Nat.id in Hall by lia.
  by replace (a + (b - a)) with b in Hall by lia.
Qed.

Lemma elem_of_range (x a b : Z) : x ∈ range a b ↔ a <= x < b.
Proof. unfold range. rewrite elem_of_seqZ. lia. Qed.

(** ** Facts on floats *)

Lemma Qlt_bool_iff (p q : Q) : Qlt_bool p q = true ↔ (p < q)%Q.
Proof.
  unfold Qlt_bool. rewrite negb_true_iff.
  destruct (Qle_bool q p) eqn:E.
  - apply Qle_bool_iff in E. split; [done | intros H; exfalso; lra].
  - split; [intros _ | done].
    apply Qnot_le_lt. intros H. apply Qle_bool_iff in H. congruence.
Qed.

Lemma xmin_cases (a b : xfloat) : xmin a b = a ∨ xmin a b = b.
Proof. unfold xmin. destruct (xlt_bool b a); auto. Qed.

Lemma xmin3_cases (a b c : xfloat) :
  xmin3 a b c = a ∨ xmin3 a b c = b ∨ xmin3 a b c = c.
Proof.
  unfold xmin3. destruct (xmin_cases (xmin a b) c) as [-> | ->]; [|auto].
  destruct (xmin_cases a b) as [-> | ->]; auto.
Qed.

Lemma xmin_finite_l (a b : xfloat) : is_finite a → is_finite (xmin a b).
Proof. unfold xmin. destruct a, b; simpl; try done. by destruct (Qlt_bool _ _). Qed.

Lemma xmin_finite_r (a b : xfloat) : is_finite b → is_finite (xmin a b).
Proof. unfold xmin. destruct a, b; simpl; try done. by destruct (Qlt_bool _ _). Qed.

(** ** The alignment matcher *)

Module DTWFacts.
Import DTWMatcher.

Lemma contour_distance_cases (a b : Z) :
  _contour_distance a b = Finite 0 ∨ _contour_distance a b = Finite 1
  ∨ _contour_distance a b = Finite 2.
Proof.
  unfold _contour_distance.
  destruct (a =? b); [auto|]. destruct (int8_wrap (a * b) =? -1); auto.
Qed.

Lemma mget_mset_ne (M : matrix) (i j i' j' : Z) (v : xfloat) :
  0 <= i → 0 <= j → 0 <= i' → 0 <= j' → (i, j) ≠ (i', j') →
  mget (mset M i j v) i' j' = mget M i' j'.
Proof.
  intros Hi Hj Hi' Hj' Hne. unfold mget, mset.
  destruct (decide (i = i')) as [<- | Hii].
  - assert (j ≠ j') by congruence.
    rewrite list_lookup_alter_eq. destruct (M !! Z.to_nat i) as [row|]; simpl; [|done].
    rewrite list_lookup_insert_ne by lia. done.
  - rewrite list_lookup_alter_ne by lia. done.
Qed.

Lemma mget_mset_cases (M : matrix) (i j : Z) (v : xfloat) :
  mget (mset M i j v) i j = v ∨ mget (mset M i j v) i j = mget M i j.
Proof.
  unfold mget, mset. rewrite list_lookup_alter_eq.
  destruct (M !! Z.to_nat i) as [row|]; simpl; [|auto].
  destruct (decide (Z.to_nat j < length row)%nat).
  - left. by rewrite list_lookup_insert_eq.
  - right. by rewrite list_insert_ge by lia.
Qed.

Lemma mget_full (rows cols i j : Z) : mget (full rows cols PosInf) i j = PosInf.
Proof.
  unfold mget, full.
  destruct (replicate _ _ !! Z.to_nat i) as [row|] eqn:E; simpl; [|done].
  apply lookup_replicate in E as [-> _].
  destruct (replicate _ _ !! Z.to_nat j) as [c|] eqn:E'; simpl; [|done].
  by apply lookup_replicate in E' as [-> _].
Qed.

(** Every property kept by one application of the recurrence inside the
    band is kept by the whole fill. *)
Lemma dtw_table_invariant (P : matrix → Prop) (window_size : option Z)
    (query reference : list Z) :
  let n := Z.of_nat (length query) in
  let m := Z.of_nat (length reference) in
  let window := band_width window_size n m in
  P (mset (full (n + 1) (m + 1) PosInf) 0 0 (Finite 0)) →
  (∀ M i j, 1 <= i <= n → 1 <= j <= m → i - window <= j < i + window →
            P M → P (dtw_cell query reference M i j)) →
  P (dtw_table window_size query reference).
Proof.
  intros n m window Hinit Hstep. unfold dtw_table.
  apply foldl_invariant; [exact Hinit|].
  intros M i Hi HM. apply elem_of_range in Hi. unfold dtw_row.
  apply foldl_invariant; [exact HM|].
  intros M' j Hj HM'. apply elem_of_range in Hj.
  subst n m window. apply Hstep; [lia | lia | lia | exact HM'].
Qed.


(** *** Cells are either infinite or between 0 and twice their index sum *)

Lemma inject_Z_step (s s' : Z) : s' + 1 <= s → (inject_Z s' + 1 <= inject_Z s)%Q.
Proof.
  intros H. change 1%Q with (inject_Z 1). rewrite <- inject_Z_plus.
  rewrite <- Zle_Qle. lia.
Qed.

Lemma cell_bounded_step (cost c : xfloat) (s s' : Z) :
  cost = Finite 0 ∨ cost = Finite 1 ∨ cost = Finite 2 →
  s' + 1 <= s → cell_bounded c s' → cell_bounded (xadd cost c) s.
Proof.
  intros Hcost Hs Hc. apply inject_Z_step in Hs.
  destruct c as [v|]; [|by destruct cost].
  simpl in Hc. destruct Hcost as [-> | [-> | ->]]; simpl; lra.
Qed.

Lemma table_bounded_init (rows cols : Z) :
  table_bounded (mset (full rows cols PosInf) 0 0 (Finite 0)).
Proof.
  intros i j Hi Hj.
  destruct (decide ((0, 0) = (i, j))) as [[= <- <-] | Hne].
  - destruct (mget_mset_cases (full rows cols PosInf) 0 0 (Finite 0)) as [-> | ->].
    + split; by vm_compute.
    + by rewrite mget_full.
  - rewrite mget_mset_ne; [by rewrite mget_full | lia | lia | lia | lia | done].
Qed.

Lemma table_bounded_cell (query reference : list Z) (M : matrix) (i j : Z) :
  1 <= i → 1 <= j → table_bounded M → table_bounded (dtw_cell query reference M i j).
Proof.
  intros Hi Hj HM i' j' Hi' Hj'. unfold dtw_cell.
  destruct (decide ((i, j) = (i', j'))) as [[= <- <-] | Hne].
  - match goal with |- cell_bounded (mget (mset _ _ _ ?v) _ _) _ =>
      destruct (mget_mset_cases M i j v) as [-> | ->] end; [|by apply HM].
    destruct (xmin3_cases (mget M (i - 1) j) (mget M i (j - 1)) (mget M (i - 1) (j - 1)))
      as [-> | [-> | ->]].
    + eapply cell_bounded_step; [apply contour_distance_cases | | apply HM; lia]. lia.
    + eapply cell_bounded_step; [apply contour_distance_cases | | apply HM; lia]. lia.
    + eapply cell_bounded_step; [apply contour_distance_cases | | apply HM; lia]. lia.
  - rewrite mget_mset_ne; [by apply HM | lia | lia | lia | lia | done].
Qed.

Lemma dtw_table_bounded (window_size : option Z) (query reference : list Z) :
  table_bounded (dtw_table window_size query reference).
Proof.
  apply dtw_table_invariant.
  - apply table_bounded_init.
  - intros M i j Hi Hj _ HM. apply table_bounded_cell; [lia | lia | done].
Qed.

(** A finite distance lies between 0 and 2. *)
Lemma compute_distance_finite_range (window_size : option Z) (query reference : list Z) (d : Q) :
  compute_distance window_size query reference = Finite d → (0 <= d <= 2)%Q.
Proof.
  unfold compute_distance.
  set (n := Z.of_nat (length query)). set (m := Z.of_nat (length reference)).
  destruct ((n =? 0) || (m =? 0)) eqn:E; [done|].
  apply orb_false_iff in E as [En Em].
  assert (0 < n + m) as Hpos by lia.
  pose proof (dtw_table_bounded window_size query reference n m ltac:(lia) ltac:(lia)) as Hb.
  destruct (mget _ n m) as [v|]; [|done]. simpl in *. intros [= <-].
  assert (0 < inject_Z (n + m))%Q as HposQ.
  { change 0%Q with (inject_Z 0). rewrite <- Zlt_Qlt. lia. }
  split.
  - apply Qle_shift_div_l; [done|]. lra.
  - apply Qle_shift_div_r; [done|]. lra.
Qed.

(** *** The last cell when the reference is much longer than the query *)

(** With a window size [w] and a reference at least [w] longer than the
    query, the band has width [m - n] and row [i] stops at column
    [i + (m - n) - 1]: the cell [(n, m)] is never written. *)
Lemma dtw_table_last_cell_unwritten (w : Z) (query reference : list Z) :
  let n := Z.of_nat (length query) in
  let m := Z.of_nat (length reference) in
  0 < n → n <= m → w <= m - n →
  mget (dtw_table (Some w) query reference) n m = PosInf.
Proof.
  intros n m Hn Hnm Hw.
  apply (dtw_table_invariant (λ M, mget M n m = PosInf)).
  - rewrite mget_mset_ne; [apply mget_full | lia | lia | lia | lia |].
    intros [= ? ?]. lia.
  - fold n m. intros M i j Hi Hj Hband HM. unfold dtw_cell.
    rewrite mget_mset_ne; [done | lia | lia | lia | lia |].
    intros [= -> ->]. unfold band_width in Hband. lia.
Qed.

(** *** Every cell inside the band is reached *)

Section Reach.
Variables (query reference : list Z) (window : Z).
Hypothesis window_pos : 1 <= window.

Local Abbreviation n := (Z.of_nat (length query)).
Local Abbreviation m := (Z.of_nat (length reference)).
Local Abbreviation in_band := (in_band n m window).
Local Abbreviation allocated := (allocated n m).
Local Abbreviation filled_before := (filled_before n m window).

Lemma allocated_full : allocated (full (n + 1) (m + 1) PosInf).
Proof.
  intros a b Ha Hb. exists (replicate (Z.to_nat (m + 1)) PosInf). split.
  - unfold full. apply lookup_replicate. split; [done | lia].
  - rewrite length_replicate. lia.
Qed.

Lemma allocated_mset (M : matrix) (i j : Z) (v : xfloat) :
  allocated M → allocated (mset M i j v).
Proof.
  intros HM a b Ha Hb. destruct (HM a b Ha Hb) as (row & Hrow & Hlen).
  unfold mset. rewrite list_lookup_alter. case_decide as E.
  - rewrite E, Hrow. simpl. eexists. split; [done|]. by rewrite length_insert.
  - by exists row.
Qed.

Lemma mget_mset_eq (M : matrix) (i j : Z) (v : xfloat) :
  allocated M → 0 <= i <= n → 0 <= j <= m → mget (mset M i j v) i j = v.
Proof.
  intros HM Hi Hj. destruct (HM i j Hi Hj) as (row & Hrow & Hlen).
  unfold mget, mset. rewrite list_lookup_alter_eq, Hrow. simpl.
  by rewrite list_lookup_insert_eq.
Qed.

Lemma xadd_cost_finite (a b : Z) (c : xfloat) :
  is_finite c → is_finite (xadd (_contour_distance a b) c).
Proof.
  intros Hc. destruct c; [|done].
  by destruct (contour_distance_cases a b) as [-> | [-> | ->]].
Qed.

Lemma filled_before_cell (M : matrix) (i j : Z) :
  in_band i j → filled_before i j M →
  filled_before i (j + 1) (dtw_cell query reference M i j).
Proof.
  intros Hij (Halloc & H00 & Hfin). pose proof Hij as (Hi & Hj & Hband).
  unfold dtw_cell. split; [by apply allocated_mset|]. split.
  { rewrite mget_mset_ne; [done | lia | lia | lia | lia |]. intros [= ? ?]. lia. }
  intros a b Hab Hbefore.
  destruct (decide ((i, j) = (a, b))) as [[= <- <-] | Hne].
  - rewrite mget_mset_eq by (done || lia). apply xadd_cost_finite. unfold xmin3.
    destruct (decide (i = 1)) as [-> | Hi1]; destruct (decide (j = 1)) as [-> | Hj1].
    + apply xmin_finite_r. exact H00.
    + apply xmin_finite_l, xmin_finite_r. apply Hfin; [|lia].
      unfold in_band. lia.
    + apply xmin_finite_l, xmin_finite_l. apply Hfin; [|lia].
      unfold in_band. lia.
    + apply xmin_finite_r. apply Hfin; [|lia]. unfold in_band. lia.
  - destruct Hab as (Ha & Hb & Hab).
    rewrite mget_mset_ne; [| lia | lia | lia | lia | done].
    apply Hfin; [done|]. destruct (decide (a = i)) as [-> | ?]; [|lia].
    assert (b ≠ j) by congruence. lia.
Qed.

Lemma filled_before_row (M : matrix) (i : Z) :
  1 <= i <= n →
  filled_before i (Z.max 1 (i - window)) M →
  filled_before (i + 1) (Z.max 1 (i + 1 - window)) (dtw_row query reference window m M i).
Proof.
  intros Hi HM. unfold dtw_row, range.
  set (j_start := Z.max 1 (i - window)). set (j_end := Z.min (m + 1) (i + window)).
  assert (filled_before i (Z.max j_start j_end)
            (foldl (λ M j, dtw_cell query reference M i j) M (seqZ j_start (j_end - j_start))))
    as (Halloc & H00 & Hfin).
  { apply (foldl_range_invariant (filled_before i)); [exact HM|].
    intros j M' Hj HM'. apply filled_before_cell; [|done].
    unfold in_band. lia. }
  split; [done|]. split; [done|].
  intros a b Hab Hbefore. apply Hfin; [done|].
  unfold in_band in Hab. lia.
Qed.

Lemma filled_all :
  filled_before (n + 1) (Z.max 1 (n + 1 - window))
    (foldl (dtw_row query reference window m)
           (mset (full (n + 1) (m + 1) PosInf) 0 0 (Finite 0)) (range 1 (n + 1))).
Proof.
  destruct (decide (n = 0)) as [Hn | Hn].
  { unfold range. rewrite seqZ_nil by lia. simpl.
    split; [apply allocated_mset, allocated_full|]. split.
    - rewrite mget_mset_eq; [done | apply allocated_full | lia | lia].
    - intros a b (Ha & _ & _). lia. }
  pose proof (foldl_range_invariant
                (λ i M, filled_before i (Z.max 1 (i - window)) M)
                (dtw_row query reference window m)
                (mset (full (n + 1) (m + 1) PosInf) 0 0 (Finite 0)) 1 (n + 1)) as Hloop.
  simpl in Hloop. replace (Z.max 1 (n + 1)) with (n + 1) in Hloop by lia.
  apply Hloop.
  - split; [apply allocated_mset, allocated_full|]. split.
    + rewrite mget_mset_eq; [done | apply allocated_full | lia | lia].
    + intros a b Hab. unfold in_band in Hab. lia.
  - intros i M Hi HM. apply filled_before_row; [lia | done].
Qed.
End Reach.

(** With a window size of at least 1 and a reference less than that much
    longer than the query, the last cell is inside the band and finite. *)
Lemma dtw_table_last_cell_finite (w : Z) (query reference : list Z) :
  let n := Z.of_nat (length query) in
  let m := Z.of_nat (length reference) in
  1 <= w → 0 < n → 0 < m → m - n < w →
  is_finite (mget (dtw_table (Some w) query reference) n m).
Proof.
  intros n m Hw Hn Hm Hnm. unfold dtw_table. fold n m.
  set (window := band_width (Some w) n m).
  assert (1 <= window) as Hwin by (unfold window, band_width; lia).
  destruct (filled_all query reference window Hwin) as (_ & _ & Hfin).
  apply Hfin; [|fold n; lia].
  unfold in_band. fold n m. unfold window, band_width. lia.
Qed.

End DTWFacts.

(** *** The cost of aligning two contour values *)


(** C3: for contour values [a] and [b] in {-1, 0, +1} the alignment cost
    is 0 when [a = b], 2 when one is +1 and the other -1, and 1 when
    exactly one of the two is 0. *)
Theorem contour_distance_table (a b : Z) :
  contour_value a → contour_value b →
  (a = b → DTWMatcher._contour_distance a b = Finite 0) ∧
  ((a = 1 ∧ b = -1) ∨ (a = -1 ∧ b = 1) → DTWMatcher._contour_distance a b = Finite 2) ∧
  ((a = 0 ∧ b ≠ 0) ∨ (a ≠ 0 ∧ b = 0) → DTWMatcher._contour_distance a b = Finite 1).
Proof.
  intros Ha Hb.
  destruct Ha as [-> | [-> | ->]]; destruct Hb as [-> | [-> | ->]];
    (split; [|split]); intros H; try reflexivity; exfalso;
    first [ discriminate H | destruct H as [[? ?] | [? ?]]; congruence ].
Qed.

Lemma contour_distance_table_witness :
  DTWMatcher._contour_distance 1 (-1) = Finite 2.
Proof.
  refine (proj1 (proj2 (contour_distance_table 1 (-1) _ _)) _).
  - right. right. reflexivity.
  - left. reflexivity.
  - left. split; reflexivity.
Defined.

(** *** The distance under the default window *)

(** C1: with the window size 50 of the humming matcher and two non-empty
    contours, the distance is finite and lies in [0, 2] when the
    reference is fewer than 50 elements longer than the query; when the
    reference is 50 or more elements longer, the band stops one column
    short of the last cell and the distance is infinite. *)
Theorem compute_distance_default_window (query reference : list Z) :
  query ≠ [] → reference ≠ [] →
  ((length reference < length query + 50)%nat →
     ∃ d, DTWMatcher.compute_distance (Some 50) query reference = Finite d
          ∧ (0 <= d <= 2)%Q) ∧
  ((length query + 50 <= length reference)%nat →
     DTWMatcher.compute_distance (Some 50) query reference = PosInf).
Proof.
  intros Hq Hr.
  assert (0 < Z.of_nat (length query)) as Hn by (destruct query; [done | simpl; lia]).
  assert (0 < Z.of_nat (length reference)) as Hm by (destruct reference; [done | simpl; lia]).
  assert ((Z.of_nat (length query) =? 0) || (Z.of_nat (length reference) =? 0) = false)
    as E0 by (rewrite orb_false_iff, !Z.eqb_neq; lia).
  split; intros Hlen.
  - pose proof (DTWFacts.dtw_table_last_cell_finite 50 query reference
                  ltac:(lia) Hn Hm ltac:(lia)) as Hfin.
    destruct (DTWMatcher.mget _ _ _) as [v|] eqn:Ecell; [|done].
    assert (DTWMatcher.compute_distance (Some 50) query reference
            = Finite (v / inject_Z (Z.of_nat (length query) + Z.of_nat (length reference))))
      as E by (unfold DTWMatcher.compute_distance; by rewrite E0, Ecell).
    eexists. split; [exact E|]. by eapply DTWFacts.compute_distance_finite_range.
  - unfold DTWMatcher.compute_distance. rewrite E0.
    rewrite DTWFacts.dtw_table_last_cell_unwritten by lia. done.
Qed.

Lemma compute_distance_default_window_witness :
  DTWMatcher.compute_distance (Some 50) [1] (replicate 51 1) = PosInf.
Proof.
  refine (proj2 (compute_distance_default_window [1] (replicate 51 1) _ _) _).
  - discriminate.
  - discriminate.
  - simpl. lia.
Defined.

(** ** The contour extractor *)

Module ContourFacts.
Import ContourExtractor.

Lemma length_range (a b : Z) : length (range a b) = Z.to_nat (b - a).
Proof. unfold range. apply length_seqZ. Qed.

Lemma length_np_diff (l : list Q) : length (np_diff l) = (length l - 1)%nat.
Proof. unfold np_diff. rewrite length_zip_with, length_tl. lia. Qed.

Lemma length_smooth_pitch (self : params) (pitch smooth : list Q) :
  _smooth_pitch self pitch = Ok smooth → length smooth = length pitch.
Proof.
  unfold _smooth_pitch. destruct (_ <? _); [by intros [= ->]|].
  destruct (_ <? _); [done|]. destruct (_ =? _); [done|]. intros [= <-].
  rewrite length_map, length_range. lia.
Qed.

Lemma smooth_pitch_total (self : params) (pitch : list Q) :
  0 < smoothing_window self → ∃ smooth, _smooth_pitch self pitch = Ok smooth.
Proof.
  intros Hw. unfold _smooth_pitch. destruct (_ <? _); [by eexists|].
  destruct (Z.ltb_spec (smoothing_window self) 0); [lia|].
  destruct (Z.eqb_spec (smoothing_window self) 0); [lia | by eexists].
Qed.


(** The split points are increasing, so the segments are consecutive
    pieces of the contour. *)
Lemma concat_split_from {A} (l : list A) (idxs : list Z) (prev : Z) :
  0 <= prev → increasing_from prev idxs →
  concat (split_from prev l idxs) = drop (Z.to_nat prev) l.
Proof.
  revert prev. induction idxs as [|i rest IH]; intros prev Hprev Hinc; simpl.
  - apply app_nil_r.
  - destruct Hinc as [Hle Hinc]. rewrite IH by (done || lia). unfold slice.
    replace (Z.to_nat i) with (Z.to_nat prev + Z.to_nat (i - prev))%nat by lia.
    rewrite <- drop_drop. apply take_drop.
Qed.

Lemma increasing_where_from (mask : list bool) (i prev : Z) :
  prev <= i + 1 → increasing_from prev (map (λ k, k + 1) (where_from i mask)).
Proof.
  revert i prev. induction mask as [|b mask IH]; intros i prev Hprev; simpl; [done|].
  destruct b; simpl.
  - split; [done|]. apply IH. lia.
  - apply IH. lia.
Qed.

Lemma length_merge_step (min_duration : Z) (result segment : list Z) :
  length (merge_step min_duration result segment) = (length result + length segment)%nat.
Proof.
  unfold merge_step. destruct (_ <=? _); [by rewrite length_app|].
  destruct (last result); rewrite length_app; [by rewrite length_replicate | done].
Qed.

Lemma length_merge_loop (min_duration : Z) (segments : list (list Z)) (result : list Z) :
  length (foldl (merge_step min_duration) result segments)
  = (length result + length (concat segments))%nat.
Proof.
  revert result. induction segments as [|seg segments IH]; intros result; simpl; [lia|].
  rewrite IH, length_merge_step, length_app. lia.
Qed.

Lemma length_smooth_contour (contour : list Z) (min_duration : Z) :
  length (_smooth_contour contour min_duration) = length contour.
Proof.
  unfold _smooth_contour. destruct (_ <? _); [done|].
  rewrite length_merge_loop. unfold np_split, np_where.
  rewrite concat_split_from; [done | lia |]. apply increasing_where_from. lia.
Qed.

Lemma extract_contour_ok (self : params) (pitch : list (option Q)) :
  0 < smoothing_window self →
  ∃ contour, extract_contour self pitch = Ok contour
             ∧ length contour = (length (PitchExtractor.valid_values pitch) - 1)%nat.
Proof.
  intros Hw. unfold extract_contour. fold (PitchExtractor.valid_values pitch).
  destruct (Nat.ltb_spec (length (PitchExtractor.valid_values pitch)) 2) as [Hlt | Hge].
  - exists []. split; [done | simpl; lia].
  - destruct (smooth_pitch_total self (PitchExtractor.valid_values pitch) Hw)
      as [smooth Hsmooth].
    rewrite Hsmooth. simpl. eexists. split; [done|].
    rewrite length_smooth_contour, length_map, length_np_diff.
    by rewrite (length_smooth_pitch _ _ _ Hsmooth).
Qed.

End ContourFacts.

(** C4: a pitch sequence with [v] valid frames yields a contour of
    exactly [max(0, v - 1)] elements, empty when [v < 2]; the run-merge
    step keeps the length of its input.  The extractor is any one with a
    positive smoothing window, as the default 3. *)
Theorem extract_contour_length (self : ContourExtractor.params) (pitch : list (option Q)) :
  0 < ContourExtractor.smoothing_window self →
  let v := Z.of_nat (length (PitchExtractor.valid_values pitch)) in
  (∃ contour, ContourExtractor.extract_contour self pitch = Ok contour
              ∧ Z.of_nat (length contour) = Z.max 0 (v - 1)
              ∧ (v < 2 → contour = [])) ∧
  (∀ (c : list Z) (min_duration : Z),
     length (ContourExtractor._smooth_contour c min_duration) = length c).
Proof.
  intros Hw v. split; [|apply ContourFacts.length_smooth_contour].
  destruct (ContourFacts.extract_contour_ok self pitch Hw) as (contour & Hc & Hlen).
  exists contour. split; [done|]. split; [lia|].
  intros Hv. destruct contour; [done | simpl in Hlen; lia].
Qed.

Lemma extract_contour_length_witness :
  ∃ contour,
    ContourExtractor.extract_contour ContourExtractor.defaults
      [Some 100%Q; None; Some 120%Q; Some 140%Q; None; Some 100%Q] = Ok contour
    ∧ Z.of_nat (length contour) = 3.
Proof.
  destruct (extract_contour_length ContourExtractor.defaults
              [Some 100%Q; None; Some 120%Q; Some 140%Q; None; Some 100%Q])
    as [(contour & Hc & Hlen & _) _].
  - reflexivity.
  - exists contour. split; [exact Hc | exact Hlen].
Defined.

(** ** The gap interpolation stage *)

Module PitchFacts.
Import PitchExtractor.

Lemma elem_of_where_from (mask : list bool) (i k : Z) :
  k ∈ where_from i mask ↔ i <= k ∧ mask !! Z.to_nat (k - i) = Some true.
Proof.
  revert i. induction mask as [|b mask IH]; intros i; simpl.
  - split; [by intros ?%elem_of_nil | by intros [_ ?]].
  - rewrite elem_of_app, IH. split.
    + intros [Hb | [Hle Hk]].
      * destruct b; [|by apply elem_of_nil in Hb].
        apply list_elem_of_singleton in Hb as ->.
        split; [lia|]. by replace (Z.to_nat (i - i)) with 0%nat by lia.
      * split; [lia|].
        by replace (Z.to_nat (k - i)) with (S (Z.to_nat (k - (i + 1)))) by lia.
    + intros [Hle Hk]. destruct (decide (k = i)) as [-> | Hne].
      * left. replace (Z.to_nat (i - i)) with 0%nat in Hk by lia.
        simpl in Hk. injection Hk as ->. by apply list_elem_of_singleton.
      * right. split; [lia|].
        by replace (Z.to_nat (k - i)) with (S (Z.to_nat (k - (i + 1)))) in Hk by lia.
Qed.

Lemma elem_of_np_where (mask : list bool) (k : Z) :
  k ∈ np_where mask ↔ 0 <= k ∧ mask !! Z.to_nat k = Some true.
Proof.
  unfold np_where. rewrite elem_of_where_from.
  by replace (k - 0) with k by lia.
Qed.

Lemma where_from_sorted (mask : list bool) (i : Z) :
  StronglySorted Z.lt (where_from i mask).
Proof.
  revert i. induction mask as [|b mask IH]; intros i; simpl; [constructor|].
  destruct b; simpl; [|apply IH].
  constructor; [apply IH|]. apply Forall_forall. intros k Hk.
  apply elem_of_where_from in Hk. lia.
Qed.

(** The nearest entry of an increasing list below, and above, a bound. *)
Lemma last_filter_below (l : list Z) (k p : Z) :
  StronglySorted Z.lt l →
  last (List.filter (λ v, v <? k) l) = Some p →
  p ∈ l ∧ p < k ∧ ∀ q, q ∈ l → q < k → q <= p.
Proof.
  induction 1 as [|x l Hl IH Hx]; simpl; [done|].
  rewrite Forall_forall in Hx.
  destruct (Z.ltb_spec x k) as [Hlt | Hge].
  - destruct (List.filter (λ v, v <? k) l) as [|y r] eqn:E.
    + intros [= <-]. split; [left|]. split; [done|].
      intros q Hq Hqk. apply elem_of_cons in Hq as [-> | Hq]; [lia|].
      assert (q ∈ List.filter (λ v, v <? k) l) as Hin.
      { apply list_elem_of_In, filter_In. split; [by apply list_elem_of_In|].
        by apply Z.ltb_lt. }
      rewrite E in Hin. by apply elem_of_nil in Hin.
    + intros Hlast. change (last (x :: y :: r)) with (last (y :: r)) in Hlast.
      destruct (IH Hlast) as (Hp & Hpk & Hmax).
      split; [by right|]. split; [done|].
      intros q Hq Hqk. apply elem_of_cons in Hq as [-> | Hq]; [|by apply Hmax].
      specialize (Hx p Hp). lia.
  - intros Hlast. destruct (IH Hlast) as (Hp & Hpk & Hmax).
    split; [by right|]. split; [done|].
    intros q Hq Hqk. apply elem_of_cons in Hq as [-> | Hq]; [lia | by apply Hmax].
Qed.

Lemma head_filter_above (l : list Z) (k nx : Z) :
  StronglySorted Z.lt l →
  head (List.filter (λ v, k <? v) l) = Some nx →
  nx ∈ l ∧ k < nx ∧ ∀ q, q ∈ l → k < q → nx <= q.
Proof.
  induction 1 as [|x l Hl IH Hx]; simpl; [done|].
  rewrite Forall_forall in Hx.
  destruct (Z.ltb_spec k x) as [Hlt | Hge]; simpl.
  - intros [= <-]. split; [left|]. split; [done|].
    intros q Hq _. apply elem_of_cons in Hq as [-> | Hq]; [lia|].
    specialize (Hx q Hq). lia.
  - intros Hhead. destruct (IH Hhead) as (Hn & Hkn & Hmin).
    split; [by right|]. split; [done|].
    intros q Hq Hkq. apply elem_of_cons in Hq as [-> | Hq]; [lia | by apply Hmin].
Qed.

Lemma zget_elem_of (l : list Z) (i : Z) :
  0 <= i < Z.of_nat (length l) → zget 0 l i ∈ l.
Proof.
  intros Hi. unfold zget.
  destruct (l !! Z.to_nat i) as [x|] eqn:E.
  - simpl. by eapply list_elem_of_lookup_2.
  - apply lookup_ge_None in E. lia.
Qed.

Lemma lookup_isnan (pitch : list (option Q)) (k : nat) (b : bool) :
  map isnan pitch !! k = Some b ↔ ∃ x, pitch !! k = Some x ∧ isnan x = b.
Proof.
  change (map isnan pitch) with (isnan <$> pitch).
  rewrite list_lookup_fmap. destruct (pitch !! k) as [x|]; simpl.
  - split; [intros [= <-]; by exists x | intros (y & [= <-] & <-); done].
  - split; [done | by intros (y & ? & _)].
Qed.

Section Gaps.
Variables (pitch : list (option Q)) (max_gap : Z).

Local Abbreviation nans_idx := (np_where (map isnan pitch)).
Local Abbreviation not_nans_idx := (np_where (map negb (map isnan pitch))).
Local Abbreviation untouched := (untouched pitch max_gap).

Lemma elem_of_nans_idx (k : Z) :
  k ∈ nans_idx ↔ 0 <= k ∧ pitch !! Z.to_nat k = Some None.
Proof.
  unfold nans_idx. rewrite elem_of_np_where, lookup_isnan. split.
  - intros [Hk (x & Hx & Hnan)]. split; [done|]. by destruct x.
  - intros [Hk Hx]. split; [done|]. by exists None.
Qed.

Lemma elem_of_not_nans_idx (k : Z) :
  k ∈ not_nans_idx ↔ 0 <= k ∧ ∃ x, pitch !! Z.to_nat k = Some (Some x).
Proof.
  unfold not_nans_idx. rewrite elem_of_np_where.
  change (map negb (map isnan pitch)) with (negb <$> (isnan <$> pitch)).
  rewrite !list_lookup_fmap. destruct (pitch !! Z.to_nat k) as [[x|]|]; simpl.
  - split; intros [Hk _]; (split; [done|]); [by exists x | done].
  - split; [by intros [_ ?] | by intros [_ [x ?]]].
  - split; [by intros [_ ?] | by intros [_ [x ?]]].
Qed.

(** One step of the loop writes at most at a missing frame, and only
    between its two nearest valid frames when they are at most
    [max_gap] apart. *)
Lemma interpolate_step_cases (cur : list (option Q)) (i : Z) :
  0 <= i < Z.of_nat (length nans_idx) →
  interpolate_step max_gap nans_idx not_nans_idx cur i = cur ∨
  ∃ k p nx v,
    interpolate_step max_gap nans_idx not_nans_idx cur i = <[Z.to_nat k := v]> cur
    ∧ 0 <= k ∧ pitch !! Z.to_nat k = Some None
    ∧ p ∈ not_nans_idx ∧ nx ∈ not_nans_idx ∧ p < k < nx
    ∧ (∀ q, q ∈ not_nans_idx → q < k → q <= p)
    ∧ (∀ q, q ∈ not_nans_idx → k < q → nx <= q)
    ∧ nx - p <= max_gap.
Proof.
  intros Hi. unfold interpolate_step.
  destruct (_ || _); [by left|].
  set (k := zget 0 nans_idx i).
  assert (k ∈ nans_idx) as Hk by by apply zget_elem_of.
  apply elem_of_nans_idx in Hk as [Hk0 Hknan].
  destruct (last _) as [p|] eqn:Hp; [|by left].
  destruct (head _) as [nx|] eqn:Hnx; [|by left].
  destruct (Z.leb_spec (nx - p) max_gap) as [Hgap | Hgap]; [|by left].
  apply last_filter_below in Hp as (Hp & Hpk & Hmax); [|apply where_from_sorted].
  apply head_filter_above in Hnx as (Hnx & Hkn & Hmin); [|apply where_from_sorted].
  right. exists k, p, nx. eexists. split; [reflexivity|]. repeat split; done.
Qed.

Lemma untouched_result : untouched (_interpolate_gaps pitch max_gap).
Proof.
  unfold _interpolate_gaps. fold nans_idx not_nans_idx.
  assert (untouched pitch) as Hinit by (split; [done | by left]).
  destruct (negb _); [done|]. destruct (_ <? _)%nat; [done|].
  apply foldl_invariant; [done|].
  intros cur i Hi [Hlen Hcur]. apply elem_of_range in Hi.
  destruct (interpolate_step_cases cur i ltac:(lia)) as [-> | Hwrite]; [by split|].
  destruct Hwrite as (k & p & nx & v & -> & Hk0 & Hknan & Hp & Hnx & Hpk & Hmax & Hmin & Hgap).
  split; [by rewrite length_insert|].
  intros k'. destruct (decide (Z.to_nat k = k')) as [<- | Hkk].
  - right. split; [done|]. exists p, nx. rewrite Z2Nat.id by done.
    exact (conj Hp (conj Hnx (conj Hpk (conj Hmax (conj Hmin Hgap))))).
  - rewrite list_lookup_insert_ne by done. apply Hcur.
Qed.
End Gaps.

(** The stage keeps the length of the sequence and every valid frame. *)
Lemma interpolate_gaps_keeps_valid (pitch : list (option Q)) (max_gap : Z) :
  length (_interpolate_gaps pitch max_gap) = length pitch ∧
  ∀ (k : nat) x, pitch !! k = Some (Some x) →
    _interpolate_gaps pitch max_gap !! k = Some (Some x).
Proof.
  destruct (untouched_result pitch max_gap) as [Hlen Hkeep]. split; [done|].
  intros k x Hx.
  destruct (Hkeep k) as [-> | [Hnan _]]; [done | congruence].
Qed.

(** A missing frame stays missing when there is no valid frame before
    it, or none after it, or when the run of missing frames around it,
    between the valid frames [p] and [nx], has [max_gap] frames or more. *)
Lemma interpolate_gaps_keeps_missing (pitch : list (option Q)) (max_gap : Z) (k : nat) :
  pitch !! k = Some None →
  (∀ j : nat, (j < k)%nat → ∀ x, pitch !! j ≠ Some (Some x))
  ∨ (∀ j : nat, (k < j)%nat → ∀ x, pitch !! j ≠ Some (Some x))
  ∨ (∃ p nx : nat, (p < k < nx)%nat
       ∧ (∀ j : nat, (p < j < nx)%nat → pitch !! j = Some None)
       ∧ max_gap <= Z.of_nat (nx - p - 1)) →
  _interpolate_gaps pitch max_gap !! k = Some None.
Proof.
  intros Hnan Hrun.
  destruct (untouched_result pitch max_gap) as [_ Hkeep].
  destruct (Hkeep k) as [-> | (_ & p & nx & Hp & Hnx & Hpk & Hmax & Hmin & Hgap)]; [done|].
  exfalso.
  apply elem_of_not_nans_idx in Hp as [Hp0 [xp Hxp]].
  apply elem_of_not_nans_idx in Hnx as [Hnx0 [xn Hxn]].
  destruct Hrun as [Hbefore | [Hafter | (p' & nx' & Hk & Hbetween & Hlong)]].
  - apply (Hbefore (Z.to_nat p) ltac:(lia) xp Hxp).
  - apply (Hafter (Z.to_nat nx) ltac:(lia) xn Hxn).
  - assert (Z.to_nat p <= p')%nat as Hpp.
    { destruct (decide (Z.to_nat p <= p')%nat); [done|].
      rewrite (Hbetween (Z.to_nat p)) in Hxp by lia. done. }
    assert (nx' <= Z.to_nat nx)%nat as Hnn.
    { destruct (decide (nx' <= Z.to_nat nx)%nat); [done|].
      rewrite (Hbetween (Z.to_nat nx)) in Hxn by lia. done. }
    lia.
Qed.

End PitchFacts.

(** C2, on the inputs of the claim.  A 3-frame missing run bounded by two
    valid frames of value 100: the first and the last missing index of
    the sequence are skipped by the loop, so only the middle frame is
    filled.  A 5-frame run bounded by valid frames, away from the first
    and last missing index: the bounding frames are 6 apart, more than
    the max-gap 5, so the run stays missing.  A 10-frame run stays
    missing. *)
Theorem interpolate_gaps_on_short_runs :
  PitchExtractor._interpolate_gaps
    [Some 100%Q; None; None; None; Some 100%Q] 5
  = [Some 100%Q; None; Some 100%Q; None; Some 100%Q]
  ∧ PitchExtractor._interpolate_gaps
      [None; Some 100%Q; None; None; None; None; None; Some 100%Q; None] 5
    = [None; Some 100%Q; None; None; None; None; None; Some 100%Q; None]
  ∧ PitchExtractor._interpolate_gaps
      ([Some 100%Q] ++ replicate 10 None ++ [Some 100%Q]) 5
    = [Some 100%Q] ++ replicate 10 None ++ [Some 100%Q].
Proof. repeat split; reflexivity. Qed.

(** A 3-frame run that holds neither the first nor the last missing
    index of the sequence is filled in full, with the common value of the
    frames that bound it. *)
Example interpolate_gaps_inner_run :
  PitchExtractor._interpolate_gaps
    [None; Some 100%Q; None; None; None; Some 100%Q; None] 5
  = [None; Some 100%Q; Some 100%Q; Some 100%Q; Some 100%Q; Some 100%Q; None].
Proof. reflexivity. Qed.

(** ** The median filter stage *)

(** C10: when the number of valid frames is at most the window, the
    median-filter stage returns the pitch sequence as it is. *)
Theorem median_filter_short_unchanged (pitch : list (option Q)) (window : Z) :
  Z.of_nat (length (PitchExtractor.valid_values pitch)) <= window →
  PitchExtractor._median_filter pitch window = Ok pitch.
Proof.
  intros Hshort. unfold PitchExtractor._median_filter.
  destruct (Z.ltb_spec window (Z.of_nat (length (PitchExtractor.valid_values pitch))));
    [lia | done].
Qed.

Lemma median_filter_short_unchanged_witness :
  PitchExtractor._median_filter
    [Some 100%Q; None; Some 900%Q; Some 100%Q; Some 100%Q; None; Some 100%Q] 5
  = Ok [Some 100%Q; None; Some 900%Q; Some 100%Q; Some 100%Q; None; Some 100%Q].
Proof.
  apply (median_filter_short_unchanged
           [Some 100%Q; None; Some 900%Q; Some 100%Q; Some 100%Q; None; Some 100%Q] 5).
  simpl. lia.
Defined.

(** One valid frame more than the window and the filter is applied: the
    outlier is replaced by the median of its neighbourhood. *)
Example median_filter_applied :
  PitchExtractor._median_filter
    [Some 100%Q; None; Some 900%Q; Some 100%Q; Some 100%Q; None; Some 100%Q; Some 100%Q] 5
  = Ok [Some 100%Q; None; Some 100%Q; Some 100%Q; Some 100%Q; None; Some 100%Q; Some 100%Q].
Proof. reflexivity. Qed.

Lemma median_filter_default_total (pitch : list (option Q)) :
  ∃ filtered, PitchExtractor._median_filter pitch 5 = Ok filtered.
Proof.
  unfold PitchExtractor._median_filter. destruct (_ <? _); by eexists.
Qed.

(** ** Persistence and the store *)

Lemma dict_get_set_eq {V} (d : list (string * V)) (k : string) (v : V) :
  dict_get (dict_set d k v) k = Some v.
Proof.
  induction d as [|[k' v'] d IH]; simpl.
  - by rewrite String.eqb_refl.
  - destruct (String.eqb k' k) eqn:E; simpl; rewrite E; [done | exact IH].
Qed.

Lemma dict_get_set_ne {V} (d : list (string * V)) (k k' : string) (v : V) :
  k' ≠ k → dict_get (dict_set d k v) k' = dict_get d k'.
Proof.
  intros Hne. induction d as [|[k0 v0] d IH]; simpl.
  - destruct (String.eqb k k') eqn:E; [|done].
    apply String.eqb_eq in E. congruence.
  - destruct (String.eqb k0 k) eqn:E; simpl.
    + apply String.eqb_eq in E. subst k0.
      destruct (String.eqb k k') eqn:E'; [|done].
      apply String.eqb_eq in E'. congruence.
    + destruct (String.eqb k0 k'); [done | exact IH].
Qed.

(** C8: saving a signature and loading the record under a key gives a
    signature with the same contour and raw pitch, whose identifier is
    the key, whatever identifier the record holds; the store holds it
    under that key. *)
Theorem load_save_roundtrip (S : MelodySignature) (k path : string)
    (db : MelodyDatabase.t) (fs : filesystem) :
  ∃ db' S',
    MelodyDatabase.load_signature db k path (save S path fs) = (db', Ok S')
    ∧ pitch_contour S' = pitch_contour S
    ∧ pitch_values S' = pitch_values S
    ∧ duration S' = duration S
    ∧ song_id S' = k
    ∧ MelodyDatabase.get_signature db' k = Some S'.
Proof.
  unfold MelodyDatabase.load_signature, save. rewrite lookup_insert_eq. simpl.
  do 2 eexists. split; [reflexivity|]. simpl. repeat split.
  unfold MelodyDatabase.get_signature. simpl. apply dict_get_set_eq.
Qed.

(** The identifier inside the record differs from the key: the key wins. *)
Example load_overrides_identifier :
  (MelodyDatabase.load_signature MelodyDatabase.empty "renamed" "a.sig"
     (save (mkSignature [1; -1] [Some 100%Q; None] "original" 30) "a.sig" ∅)).2
  = Ok (mkSignature [1; -1] [Some 100%Q; None] "renamed" 30).
Proof.
  unfold MelodyDatabase.load_signature, save. rewrite lookup_insert_eq. reflexivity.
Qed.

(** C9: an [add] whose extraction raises leaves the store as it was and
    raises the same exception; an [add] whose extraction succeeds returns
    the new signature and stores it under the identifier, in place of any
    earlier entry, leaving the other entries as they were. *)
Theorem add_song_store (pyin : string → option Q → result (list PitchExtractor.frame))
    (db : MelodyDatabase.t) (id audio_path : string) (dur : option Q) :
  match PitchExtractor.extract_pitch pyin audio_path dur with
  | Raise e => MelodyDatabase.add_song pyin db id audio_path dur = (db, Raise e)
  | Ok pitch =>
      ∃ contour db',
        ContourExtractor.extract_contour ContourExtractor.defaults pitch = Ok contour
        ∧ let signature := mkSignature contour pitch id (default 0%Q dur) in
          MelodyDatabase.add_song pyin db id audio_path dur = (db', Ok signature)
          ∧ MelodyDatabase.get_signature db' id = Some signature
          ∧ ∀ id', id' ≠ id →
              MelodyDatabase.get_signature db' id' = MelodyDatabase.get_signature db id'
  end.
Proof.
  unfold MelodyDatabase.add_song.
  destruct (PitchExtractor.extract_pitch pyin audio_path dur) as [pitch | e]; [|done].
  destruct (ContourFacts.extract_contour_ok ContourExtractor.defaults pitch)
    as (contour & Hc & _); [done|].
  rewrite Hc. do 2 eexists. split; [reflexivity|]. simpl. split; [reflexivity|].
  unfold MelodyDatabase.get_signature. simpl. split.
  - apply dict_get_set_eq.
  - intros id' Hne. by apply dict_get_set_ne.
Qed.

(** ** Ranking *)

Module RankFacts.
Import HummingMatcher.

Lemma xle_refl (a : xfloat) : xle a a.
Proof. destruct a; simpl; [apply Qle_refl | done]. Qed.

Lemma xle_trans (a b c : xfloat) : xle a b → xle b c → xle a c.
Proof. destruct a, b, c; simpl; try done. apply Qle_trans. Qed.

Lemma xlt_bool_true (a b : xfloat) : xlt_bool a b = true → xle a b.
Proof.
  destruct a, b; simpl; try done. intros H. apply Qlt_bool_iff in H. by apply Qlt_le_weak.
Qed.

Lemma xlt_bool_false (a b : xfloat) : xlt_bool a b = false → xle b a.
Proof.
  destruct a, b; simpl; try done. unfold Qlt_bool. rewrite negb_false_iff.
  apply Qle_bool_iff.
Qed.

Lemma insert_by_perm {A} (lt : A → A → bool) (x : A) (l : list A) :
  insert_by lt x l ≡ₚ x :: l.
Proof.
  induction l as [|y l IH]; simpl; [done|].
  destruct (lt x y); [done|]. rewrite IH. apply Permutation_swap.
Qed.

Lemma sort_loop_perm {A} (lt : A → A → bool) (l acc : list A) :
  foldl (λ acc x, insert_by lt x acc) acc l ≡ₚ l ++ acc.
Proof.
  revert acc. induction l as [|x l IH]; intros acc; simpl; [done|].
  rewrite IH, insert_by_perm. by rewrite Permutation_middle.
Qed.

Lemma sort_by_perm {A} (lt : A → A → bool) (l : list A) : sort_by lt l ≡ₚ l.
Proof. unfold sort_by. rewrite sort_loop_perm. by rewrite app_nil_r. Qed.

Lemma insert_by_sorted (x : string * xfloat) (l : list (string * xfloat)) :
  StronglySorted dist_le l → StronglySorted dist_le (insert_by by_distance x l).
Proof.
  induction 1 as [|y l Hl IH Hy]; simpl.
  - repeat constructor.
  - destruct (by_distance x y) eqn:E.
    + apply xlt_bool_true in E. constructor; [by constructor|].
      constructor; [done|]. eapply Forall_impl; [exact Hy|].
      intros z Hz. by eapply xle_trans.
    + apply xlt_bool_false in E. constructor; [done|].
      rewrite insert_by_perm. by constructor.
Qed.

Lemma sort_by_sorted (l : list (string * xfloat)) :
  StronglySorted dist_le (sort_by by_distance l).
Proof.
  unfold sort_by.
  apply (foldl_invariant (StronglySorted dist_le)); [constructor|].
  intros acc x _. apply insert_by_sorted.
Qed.

Lemma sorted_ranked (l : list (string * xfloat)) : StronglySorted dist_le l → ranked l.
Proof.
  induction 1 as [|x l Hl IH Hx]; intros i j a b Hij Ha Hb.
  - done.
  - destruct j as [|j]; [lia|]. simpl in Hb. destruct i as [|i]; simpl in Ha.
    + injection Ha as <-. rewrite Forall_forall in Hx.
      apply Hx. by eapply list_elem_of_lookup_2.
    + eapply IH; [|done..]. lia.
Qed.

Lemma ranked_take (l : list (string * xfloat)) (k : nat) : ranked l → ranked (take k l).
Proof.
  intros Hl i j x y Hij Hx Hy.
  apply lookup_take_Some in Hx as [Hx _]. apply lookup_take_Some in Hy as [Hy _].
  by eapply Hl.
Qed.

Lemma ranked_prefix (l : list (string * xfloat)) (k : Z) : ranked l → ranked (prefix l k).
Proof. unfold prefix. destruct (0 <=? k); apply ranked_take. Qed.

Lemma prefix_subseteq {A} (l : list A) (k : Z) : prefix l k ⊆ l.
Proof. unfold prefix. destruct (0 <=? k); apply subseteq_take. Qed.

Lemma prefix_all {A} (l : list A) (k : Z) : Z.of_nat (length l) <= k → prefix l k = l.
Proof.
  intros Hk. unfold prefix. destruct (Z.leb_spec 0 k); [|lia].
  apply take_ge. lia.
Qed.

Lemma length_prefix {A} (l : list A) (k : Z) :
  0 <= k → Z.of_nat (length (prefix l k)) = Z.min k (Z.of_nat (length l)).
Proof.
  intros Hk. unfold prefix. destruct (Z.leb_spec 0 k); [|lia].
  rewrite length_take. lia.
Qed.

Lemma elem_of_score_all (contour : list Z) (db : MelodyDatabase.t) (r : string * xfloat) :
  r ∈ score_all contour db ↔
  ∃ id signature, (id, signature) ∈ MelodyDatabase.signatures db
    ∧ r = (id, DTWMatcher.compute_distance (Some 50) contour (pitch_contour signature)).
Proof.
  unfold score_all. rewrite list_elem_of_In, in_map_iff. split.
  - intros ([id signature] & <- & Hin). exists id, signature.
    by rewrite list_elem_of_In.
  - intros (id & signature & Hin & ->). exists (id, signature).
    by rewrite <- list_elem_of_In.
Qed.

End RankFacts.


(** ** The humming matcher *)

Module MatchFacts.
Import HummingMatcher.

Section WithTracker.
Variable pyin : string → option Q → result (list PitchExtractor.frame).

Lemma extract_eq (path : string) (pitch : list (option Q)) (contour : list Z) :
  PitchExtractor.extract_pitch pyin path None = Ok pitch →
  ContourExtractor.extract_contour ContourExtractor.defaults pitch = Ok contour →
  extract pyin path = Ok (pitch, contour).
Proof. intros Hp Hc. unfold extract. rewrite Hp. simpl. by rewrite Hc. Qed.

Lemma extract_inv (path : string) (pitch : list (option Q)) (contour : list Z) :
  extract pyin path = Ok (pitch, contour) →
  PitchExtractor.extract_pitch pyin path None = Ok pitch
  ∧ ContourExtractor.extract_contour ContourExtractor.defaults pitch = Ok contour.
Proof.
  unfold extract.
  destruct (PitchExtractor.extract_pitch pyin path None) as [p|]; simpl; [|done].
  destruct (ContourExtractor.extract_contour _ p) as [c|] eqn:Hc; simpl; [|done].
  intros [= <- <-]. by split.
Qed.

Lemma match_humming_eq (db : MelodyDatabase.t) (path : string) (top_k : Z)
    (pitch : list (option Q)) (contour : list Z) :
  extract pyin path = Ok (pitch, contour) →
  match_humming pyin db path top_k =
    if (length contour =? 0)%nat
    then Raise (ValueError "Could not extract valid melody from humming")
    else Ok (prefix (sort_by by_distance (score_all contour db)) top_k).
Proof. intros He. unfold match_humming. by rewrite He. Qed.

Lemma match_with_details_inv (db : MelodyDatabase.t) (path : string) (det : details) :
  match_with_details pyin db path = Ok det →
  ∃ pitch contour,
    extract pyin path = Ok (pitch, contour) ∧ contour ≠ [] ∧
    matches det =
      map (λ r : string * xfloat, mkMatch r.1 r.2 (similarity_score r.2))
          (prefix (sort_by by_distance (score_all contour db)) 5).
Proof.
  unfold match_with_details.
  destruct (extract pyin path) as [[pitch contour]|] eqn:He; simpl; [|done].
  rewrite (match_humming_eq db path 5 pitch contour He).
  destruct contour as [|c contour]; simpl; [done|].
  intros [= <-]. exists pitch, (c :: contour). by repeat split.
Qed.
End WithTracker.

(** Every reported distance is the matcher's distance to a stored entry. *)
Lemma reported_distance (contour : list Z) (db : MelodyDatabase.t) (top_k : Z)
    (r : string * xfloat) :
  r ∈ prefix (sort_by by_distance (score_all contour db)) top_k →
  ∃ id signature, (id, signature) ∈ MelodyDatabase.signatures db
    ∧ r = (id, DTWMatcher.compute_distance (Some 50) contour (pitch_contour signature)).
Proof.
  intros Hr. apply RankFacts.prefix_subseteq in Hr.
  rewrite RankFacts.sort_by_perm in Hr. by apply RankFacts.elem_of_score_all.
Qed.

Lemma similarity_score_infinite : similarity_score PosInf = Finite 0.
Proof. reflexivity. Qed.

Lemma similarity_score_finite (d : Q) :
  (0 <= d)%Q →
  similarity_score (Finite d) = Finite (1 / (1 + d)) ∧ (0 < 1 / (1 + d) <= 1)%Q.
Proof.
  intros Hd. unfold similarity_score. simpl.
  destruct (Qeq_bool (1 + d) 0) eqn:E.
  { apply Qeq_bool_iff in E. lra. }
  split; [done|]. split.
  - apply Qlt_shift_div_l; lra.
  - apply Qle_shift_div_r; lra.
Qed.

Lemma similarity_decreasing (d1 d2 : Q) :
  (0 <= d1)%Q → (d1 < d2)%Q → (1 / (1 + d2) < 1 / (1 + d1))%Q.
Proof.
  intros H1 H12. apply Qlt_shift_div_r; [lra|].
  assert (1 / (1 + d1) * (1 + d2) == (1 + d2) / (1 + d1))%Q as -> by (field; lra).
  apply Qlt_shift_div_l; lra.
Qed.

Lemma similarity_antitone (d1 d2 : Q) :
  (0 <= d1)%Q → (d1 <= d2)%Q → (1 / (1 + d2) <= 1 / (1 + d1))%Q.
Proof.
  intros H1 H12. apply Qle_shift_div_r; [lra|].
  assert (1 / (1 + d1) * (1 + d2) == (1 + d2) / (1 + d1))%Q as -> by (field; lra).
  apply Qle_shift_div_l; lra.
Qed.

(** The score of a distance produced by the matcher. *)
Lemma similarity_of_distance (query reference : list Z) :
  match DTWMatcher.compute_distance (Some 50) query reference with
  | Finite d =>
      (0 <= d)%Q
      ∧ similarity_score (Finite d) = Finite (1 / (1 + d))
      ∧ in_half_open_unit (similarity_score (Finite d))
  | PosInf => similarity_score PosInf = Finite 0
  end.
Proof.
  destruct (DTWMatcher.compute_distance (Some 50) query reference) as [d|] eqn:E; [|done].
  apply DTWFacts.compute_distance_finite_range in E as [Hd _].
  destruct (similarity_score_finite d Hd) as [-> Hrange].
  split; [done|]. split; [done | exact Hrange].
Qed.

(** The distance of the query to a stored entry with a non-empty
    contour: finite, with a similarity in (0, 1], when the entry is
    fewer than 50 elements longer than the query; infinite, as for an
    empty contour, when it is 50 or more elements longer. *)
Lemma entry_distance (query reference : list Z) :
  query ≠ [] → reference ≠ [] →
  ((length reference < length query + 50)%nat →
     ∃ q, DTWMatcher.compute_distance (Some 50) query reference = Finite q
          ∧ (0 <= q <= 2)%Q
          ∧ in_half_open_unit (similarity_score (Finite q))) ∧
  ((length query + 50 <= length reference)%nat →
     DTWMatcher.compute_distance (Some 50) query reference = PosInf).
Proof.
  intros Hq Hr.
  assert (0 < Z.of_nat (length query)) as Hn by (destruct query; [done | simpl; lia]).
  assert (0 < Z.of_nat (length reference)) as Hm by (destruct reference; [done | simpl; lia]).
  assert ((Z.of_nat (length query) =? 0) || (Z.of_nat (length reference) =? 0) = false)
    as E0 by (rewrite orb_false_iff, !Z.eqb_neq; lia).
  split; intros Hlen.
  - pose proof (DTWFacts.dtw_table_last_cell_finite 50 query reference
                  ltac:(lia) Hn Hm ltac:(lia)) as Hfin.
    destruct (DTWMatcher.mget _ _ _) as [v|] eqn:Ecell; [|done].
    assert (DTWMatcher.compute_distance (Some 50) query reference
            = Finite (v / inject_Z (Z.of_nat (length query) + Z.of_nat (length reference))))
      as E by (unfold DTWMatcher.compute_distance; by rewrite E0, Ecell).
    pose proof (DTWFacts.compute_distance_finite_range _ _ _ _ E) as Hrange.
    eexists. split; [exact E|]. split; [exact Hrange|].
    destruct (similarity_score_finite _ (proj1 Hrange)) as [-> Hs]. exact Hs.
  - unfold DTWMatcher.compute_distance. rewrite E0.
    rewrite DTWFacts.dtw_table_last_cell_unwritten by lia. done.
Qed.

End MatchFacts.

(** C5: a distance with an empty contour on either side is positive
    infinity, not an exception; and a query with a non-empty contour is
    scored against every entry of the store without an exception, every
    result being returned when [top_k] covers the store.  An entry with
    an empty contour receives an infinite distance and similarity 0.  An
    entry with a non-empty contour, fewer than 50 elements longer than
    the query, receives a finite distance between 0 and 2 and a
    similarity in (0, 1].  An entry with a non-empty contour that is 50
    or more elements longer than the query receives, like the empty one,
    an infinite distance and similarity 0: the band of the matcher stops
    one column short of the last cell. *)
Theorem incomparable_entries_do_not_abort :
  (∀ (window_size : option Z) (contour : list Z),
     DTWMatcher.compute_distance window_size contour [] = PosInf
     ∧ DTWMatcher.compute_distance window_size [] contour = PosInf) ∧
  (∀ (pyin : string → option Q → result (list PitchExtractor.frame))
     (db : MelodyDatabase.t) (path : string) (top_k : Z)
     (pitch : list (option Q)) (contour : list Z),
     PitchExtractor.extract_pitch pyin path None = Ok pitch →
     ContourExtractor.extract_contour ContourExtractor.defaults pitch = Ok contour →
     contour ≠ [] →
     ∃ results,
       HummingMatcher.match_humming pyin db path top_k = Ok results ∧
       ∀ id signature, (id, signature) ∈ MelodyDatabase.signatures db →
         let reference := pitch_contour signature in
         let d := DTWMatcher.compute_distance (Some 50) contour reference in
         (id, d) ∈ HummingMatcher.score_all contour db
         ∧ (Z.of_nat (length (MelodyDatabase.signatures db)) <= top_k → (id, d) ∈ results)
         ∧ (reference = [] →
              d = PosInf ∧ HummingMatcher.similarity_score d = Finite 0)
         ∧ (reference ≠ [] → (length reference < length contour + 50)%nat →
              ∃ q, d = Finite q ∧ (0 <= q <= 2)%Q
                   ∧ in_half_open_unit (HummingMatcher.similarity_score d))
         ∧ (reference ≠ [] → (length contour + 50 <= length reference)%nat →
              d = PosInf ∧ HummingMatcher.similarity_score d = Finite 0)).
Proof.
  split.
  - intros window_size contour. unfold DTWMatcher.compute_distance. simpl.
    by rewrite orb_true_r.
  - intros pyin db path top_k pitch contour Hp Hc Hne.
    pose proof (MatchFacts.extract_eq pyin path pitch contour Hp Hc) as He.
    rewrite (MatchFacts.match_humming_eq pyin db path top_k pitch contour He).
    destruct contour as [|c contour]; [done|]. simpl length. cbv iota.
    change (S (length contour) =? 0)%nat with false. cbv iota.
    eexists. split; [reflexivity|]. intros id signature Hin reference d.
    assert ((id, d) ∈ HummingMatcher.score_all (c :: contour) db) as Hscore.
    { apply RankFacts.elem_of_score_all. by exists id, signature. }
    split; [done|]. split; [|split; [|split]].
    + intros Hk. rewrite RankFacts.prefix_all.
      * by rewrite RankFacts.sort_by_perm.
      * rewrite RankFacts.sort_by_perm. unfold HummingMatcher.score_all.
        by rewrite length_map.
    + intros Hempty. subst d. rewrite Hempty.
      unfold DTWMatcher.compute_distance. simpl. done.
    + intros Hr Hlen.
      destruct (proj1 (MatchFacts.entry_distance (c :: contour) reference Hne Hr) Hlen)
        as (q & Hq & Hrange & Hs).
      exists q. subst d. rewrite Hq. split; [done|]. split; [exact Hrange | exact Hs].
    + intros Hr Hlen. subst d.
      rewrite (proj2 (MatchFacts.entry_distance (c :: contour) reference Hne Hr) Hlen).
      by split.
Qed.

Lemma incomparable_entries_do_not_abort_witness :
  ∃ results,
    HummingMatcher.match_humming Demo.pyin
      {| MelodyDatabase.signatures :=
           MelodyDatabase.signatures Demo.catalogue
           ++ [("long", mkSignature (replicate 60 1) [] "long" 30)] |}
      "hum.wav" 5 = Ok results
    ∧ ("silent", PosInf) ∈ results
    ∧ ("long", PosInf) ∈ results
    ∧ ∃ q, ("song", Finite q) ∈ results ∧ (0 <= q <= 2)%Q.
Proof.
  destruct (proj2 incomparable_entries_do_not_abort Demo.pyin
              {| MelodyDatabase.signatures :=
                   MelodyDatabase.signatures Demo.catalogue
                   ++ [("long", mkSignature (replicate 60 1) [] "long" 30)] |}
              "hum.wav" 5 Demo.hum_pitch Demo.hum_contour)
    as (results & Hres & Hall).
  - reflexivity.
  - reflexivity.
  - discriminate.
  - exists results. split; [exact Hres|]. split; [|split].
    + destruct (Hall "silent" (mkSignature [] (replicate 6 None) "silent" 30))
        as (_ & Hin & _).
      * right. left.
      * apply Hin. simpl. lia.
    + destruct (Hall "long" (mkSignature (replicate 60 1) [] "long" 30))
        as (_ & Hin & _ & _ & Hfar).
      * right. right. left.
      * destruct Hfar as [Hd _]; [discriminate | simpl; lia |].
        simpl in Hd. rewrite <- Hd. apply Hin. simpl. lia.
    + destruct (Hall "song"
                  (mkSignature [1; 1; 1; -1; -1; -1; -1]
                     (map (λ hz, Some (inject_Z hz))
                          [330; 370; 392; 392; 392; 330; 330; 294])
                     "song" 30))
        as (_ & Hin & _ & Hnear & _).
      * left.
      * destruct Hnear as (q & Hq & Hrange & _); [discriminate | simpl; lia |].
        exists q. split; [|exact Hrange]. simpl in Hq. rewrite <- Hq.
        apply Hin. simpl. lia.
Defined.

(** C7: when the contour extracted from the query is empty,
    [match_humming] raises the no-melody error; when it is non-empty,
    [match_humming] returns a list: the scores of stored entries, ranked
    by increasing distance and cut to [top_k] entries. *)
Theorem match_humming_no_melody
    (pyin : string → option Q → result (list PitchExtractor.frame))
    (db : MelodyDatabase.t) (path : string) (top_k : Z)
    (pitch : list (option Q)) (contour : list Z) :
  PitchExtractor.extract_pitch pyin path None = Ok pitch →
  ContourExtractor.extract_contour ContourExtractor.defaults pitch = Ok contour →
  (contour = [] →
     HummingMatcher.match_humming pyin db path top_k
     = Raise (ValueError "Could not extract valid melody from humming")) ∧
  (contour ≠ [] →
     ∃ results,
       HummingMatcher.match_humming pyin db path top_k = Ok results
       ∧ ranked results
       ∧ results ⊆ HummingMatcher.score_all contour db
       ∧ (0 <= top_k →
            Z.of_nat (length results)
            = Z.min top_k (Z.of_nat (length (MelodyDatabase.signatures db))))).
Proof.
  intros Hp Hc.
  pose proof (MatchFacts.extract_eq pyin path pitch contour Hp Hc) as He.
  rewrite (MatchFacts.match_humming_eq pyin db path top_k pitch contour He).
  split.
  - by intros ->.
  - intros Hne. destruct contour as [|c contour]; [done|]. simpl.
    eexists. split; [reflexivity|]. split; [|split].
    + apply RankFacts.ranked_prefix, RankFacts.sorted_ranked, RankFacts.sort_by_sorted.
    + intros r Hr. apply RankFacts.prefix_subseteq in Hr.
      by rewrite RankFacts.sort_by_perm in Hr.
    + intros Hk. rewrite RankFacts.length_prefix by done.
      rewrite RankFacts.sort_by_perm. unfold HummingMatcher.score_all.
      by rewrite length_map.
Qed.

Lemma match_humming_no_melody_witness :
  HummingMatcher.match_humming Demo.pyin Demo.catalogue "silence.wav" 5
  = Raise (ValueError "Could not extract valid melody from humming").
Proof.
  refine (proj1 (match_humming_no_melody Demo.pyin Demo.catalogue "silence.wav" 5
                   (replicate 6 None) [] _ _) _); reflexivity.
Defined.

(** A query with a melody is answered with a ranked list. *)
Example match_humming_ranked :
  HummingMatcher.match_humming Demo.pyin Demo.catalogue "hum.wav" 5
  = Ok [("song", Finite (0 # 12)); ("silent", PosInf)].
Proof. reflexivity. Qed.

(** C6, as the code has it.  Every match reported by
    [match_with_details] carries the matcher's distance [d] between the
    query contour and a stored entry, and the similarity score
    [1 / (1 + d)].  For every such distance: when [d] is finite it is
    non-negative and the score lies in (0, 1]; when [d] is infinite the
    score is 0.  The score decreases as the distance grows. *)
Theorem similarity_score_reported :
  (∀ (pyin : string → option Q → result (list PitchExtractor.frame))
     (db : MelodyDatabase.t) (path : string) (det : HummingMatcher.details),
     HummingMatcher.match_with_details pyin db path = Ok det →
     ∃ contour, contour ≠ [] ∧
       ∀ e, e ∈ HummingMatcher.matches det →
         HummingMatcher.m_similarity_score e
         = HummingMatcher.similarity_score (HummingMatcher.m_distance e)
         ∧ ∃ signature,
             (HummingMatcher.m_song_id e, signature) ∈ MelodyDatabase.signatures db
             ∧ HummingMatcher.m_distance e
               = DTWMatcher.compute_distance (Some 50) contour (pitch_contour signature)) ∧
  (∀ query reference : list Z,
     match DTWMatcher.compute_distance (Some 50) query reference with
     | Finite d =>
         (0 <= d)%Q
         ∧ HummingMatcher.similarity_score (Finite d) = Finite (1 / (1 + d))
         ∧ in_half_open_unit (HummingMatcher.similarity_score (Finite d))
     | PosInf => HummingMatcher.similarity_score PosInf = Finite 0
     end) ∧
  (∀ query1 reference1 query2 reference2 : list Z,
     let d1 := DTWMatcher.compute_distance (Some 50) query1 reference1 in
     let d2 := DTWMatcher.compute_distance (Some 50) query2 reference2 in
     xle d1 d2 →
     xle (HummingMatcher.similarity_score d2) (HummingMatcher.similarity_score d1)).
Proof.
  split; [|split].
  - intros pyin db path det Hdet.
    destruct (MatchFacts.match_with_details_inv pyin db path det Hdet)
      as (pitch & contour & He & Hne & Hm).
    exists contour. split; [done|]. intros e Hin. rewrite Hm in Hin.
    apply list_elem_of_In, in_map_iff in Hin as (r & <- & Hr). simpl. split; [done|].
    apply list_elem_of_In, MatchFacts.reported_distance in Hr as (id & sg & Hsg & ->).
    by exists sg.
  - apply MatchFacts.similarity_of_distance.
  - intros query1 reference1 query2 reference2 d1 d2 Hle.
    pose proof (MatchFacts.similarity_of_distance query1 reference1) as H1.
    pose proof (MatchFacts.similarity_of_distance query2 reference2) as H2.
    fold d1 in H1. fold d2 in H2.
    destruct d1 as [x1|], d2 as [x2|]; simpl in Hle.
    + destruct H1 as (Hx1 & -> & _), H2 as (_ & -> & _). simpl.
      by apply MatchFacts.similarity_antitone.
    + destruct H1 as (_ & -> & [Hpos _]). rewrite H2. simpl. by apply Qlt_le_weak.
    + done.
    + rewrite H2. simpl. apply Qle_refl.
Qed.

Lemma similarity_score_reported_witness :
  ∃ contour, contour ≠ [] ∧
    ∀ e, e ∈ HummingMatcher.matches demo_details →
      HummingMatcher.m_similarity_score e
      = HummingMatcher.similarity_score (HummingMatcher.m_distance e)
      ∧ ∃ signature,
          (HummingMatcher.m_song_id e, signature) ∈ MelodyDatabase.signatures Demo.catalogue
          ∧ HummingMatcher.m_distance e
            = DTWMatcher.compute_distance (Some 50) contour (pitch_contour signature).
Proof.
  apply (proj1 similarity_score_reported Demo.pyin Demo.catalogue "hum.wav" demo_details).
  reflexivity.
Defined.

(** The score reported for a stored entry without a melody is 0, which
    is outside (0, 1]. *)
Lemma similarity_score_zero_reported :
  HummingMatcher.match_with_details Demo.pyin Demo.catalogue "hum.wav" = Ok demo_details
  ∧ ∃ e, e ∈ HummingMatcher.matches demo_details
         ∧ HummingMatcher.m_distance e
           = DTWMatcher.compute_distance (Some 50) Demo.hum_contour []
         ∧ HummingMatcher.m_similarity_score e
           = HummingMatcher.similarity_score (HummingMatcher.m_distance e)
         ∧ ¬ in_half_open_unit (HummingMatcher.m_similarity_score e).
Proof.
  split; [reflexivity|].
  exists (HummingMatcher.mkMatch "silent" PosInf (Finite 0)).
  split; [right; left|]. split; [reflexivity|]. split; [reflexivity|].
  simpl. intros [H _]. by apply Qlt_irrefl in H.
Qed.

(** * Further properties *)

(** ** More on the alignment matcher *)

Module DTWMore.
Import DTWMatcher.

(** An invariant that follows the two loops: it holds when the fill
    starts, each application of the recurrence moves it one column on,
    and the end of a row hands it to the start of the next. *)
Lemma dtw_table_position_invariant (P : Z → Z → matrix → Prop)
    (window_size : option Z) (query reference : list Z) :
  let n := Z.of_nat (length query) in
  let m := Z.of_nat (length reference) in
  let window := band_width window_size n m in
  let j_start := λ i, Z.max 1 (i - window) in
  let j_end := λ i, Z.min (m + 1) (i + window) in
  P 1 (j_start 1) (mset (full (n + 1) (m + 1) PosInf) 0 0 (Finite 0)) →
  (∀ M i j, 1 <= i <= n → j_start i <= j < j_end i →
            P i j M → P i (j + 1) (dtw_cell query reference M i j)) →
  (∀ M i, 1 <= i <= n → P i (Z.max (j_start i) (j_end i)) M → P (i + 1) (j_start (i + 1)) M) →
  P (Z.max 1 (n + 1)) (j_start (Z.max 1 (n + 1))) (dtw_table window_size query reference).
Proof.
  intros n m window j_start j_end Hinit Hcell Hrow. unfold dtw_table, range.
  apply (foldl_range_invariant (λ i M, P i (j_start i) M)); [exact Hinit|].
  intros i M Hi HM. apply Hrow; [lia|]. unfold dtw_row, range.
  apply (foldl_range_invariant (P i)); [exact HM|].
  intros j M' Hj HM'. apply Hcell; [lia | done | done].
Qed.

Lemma xmin_le_l (a b : xfloat) : xle (xmin a b) a.
Proof.
  unfold xmin. destruct (xlt_bool b a) eqn:E.
  - destruct a, b; simpl in *; try done. apply Qlt_bool_iff in E. by apply Qlt_le_weak.
  - destruct a; simpl; [apply Qle_refl | done].
Qed.

Lemma xmin_le_r (a b : xfloat) : xle (xmin a b) b.
Proof.
  unfold xmin. destruct (xlt_bool b a) eqn:E.
  - destruct b; simpl; [apply Qle_refl | done].
  - destruct a, b; simpl in *; try done.
    unfold Qlt_bool in E. rewrite negb_false_iff in E. by apply Qle_bool_iff.
Qed.

Lemma xle_transitive (a b c : xfloat) : xle a b → xle b c → xle a c.
Proof. destruct a, b, c; simpl; try done. apply Qle_trans. Qed.

Lemma xmin3_le_3 (a b c : xfloat) : xle (xmin3 a b c) c.
Proof. unfold xmin3. apply xmin_le_r. Qed.

Lemma xmin3_bounded (a b c : xfloat) (s : Z) :
  cell_bounded a s → cell_bounded b s → cell_bounded c s → cell_bounded (xmin3 a b c) s.
Proof.
  intros Ha Hb Hc. destruct (xmin3_cases a b c) as [-> | [-> | ->]]; done.
Qed.

Lemma cell_bounded_mono (c : xfloat) (s s' : Z) :
  s <= s' → cell_bounded c s → cell_bounded c s'.
Proof.
  intros Hs. destruct c as [v|]; simpl; [|done].
  intros [H0 Hv]. split; [done|]. rewrite Zle_Qle in Hs. lra.
Qed.

Section Diagonal.
Variables (window_size : option Z) (contour : list Z).
Hypothesis wide : holds_diagonal window_size.
Hypothesis non_empty : contour ≠ [].

Local Abbreviation n := (Z.of_nat (length contour)).
Local Abbreviation window := (band_width window_size n n).

Lemma diagonal_window : 1 <= window.
Proof.
  assert (0 < n) by (destruct contour; [done | simpl; lia]).
  unfold band_width. destruct window_size as [w|]; simpl in wide; lia.
Qed.

Lemma diagonal_cell (M : matrix) (i j : Z) :
  1 <= i <= n → 1 <= j <= n →
  table_bounded M ∧ allocated n n M ∧ diagonal_zero_before n i j M →
  table_bounded (dtw_cell contour contour M i j)
  ∧ allocated n n (dtw_cell contour contour M i j)
  ∧ diagonal_zero_before n i (j + 1) (dtw_cell contour contour M i j).
Proof.
  intros Hi Hj (Hb & Halloc & Hdiag).
  split; [apply DTWFacts.table_bounded_cell; [lia | lia | done]|].
  split; [by apply DTWFacts.allocated_mset|].
  intros a Ha Hbefore. unfold dtw_cell.
  destruct (decide ((i, j) = (a, a))) as [Heq | Hne].
  - injection Heq as Hia Hja. subst a. subst j.
    rewrite (DTWFacts.mget_mset_eq contour contour) by (done || lia).
    destruct (Hdiag (i - 1) ltac:(lia) ltac:(lia)) as (v0 & Hv0 & Hz).
    replace (i - 1 - 1 + 1) with (i - 1) in * by lia.
    set (best := xmin3 (mget M (i - 1) i) (mget M i (i - 1)) (mget M (i - 1) (i - 1))).
    assert (cell_bounded best (i + i)) as Hbest.
    { apply xmin3_bounded; (eapply cell_bounded_mono; [|apply Hb; lia]); lia. }
    assert (xle best (Finite v0)) as Hle.
    { unfold best. rewrite <- Hv0. apply xmin3_le_3. }
    unfold _contour_distance. rewrite Z.eqb_refl.
    destruct best as [v|]; [|done]. simpl in *.
    eexists. split; [reflexivity|]. lra.
  - rewrite DTWFacts.mget_mset_ne; [| lia | lia | lia | lia | done].
    apply Hdiag; [done|]. destruct (decide (a = i)) as [-> | ?]; [|lia].
    assert (i ≠ j) by congruence. lia.
Qed.

Lemma diagonal_all :
  diagonal_zero_before n (n + 1) (Z.max 1 (n + 1 - window))
    (dtw_table window_size contour contour).
Proof.
  pose proof diagonal_window as Hwin.
  assert (0 < n) as Hn by (destruct contour; [done | simpl; lia]).
  pose proof (dtw_table_position_invariant
                (λ i j M, table_bounded M ∧ allocated n n M ∧ diagonal_zero_before n i j M)
                window_size contour contour) as Hloop.
  simpl in Hloop. replace (Z.max 1 (n + 1)) with (n + 1) in Hloop by lia.
  apply Hloop.
  - split; [apply DTWFacts.table_bounded_init|].
    split; [apply DTWFacts.allocated_mset, DTWFacts.allocated_full|].
    intros a Ha Hbefore. assert (a = 0) as -> by lia.
    rewrite (DTWFacts.mget_mset_eq contour contour);
      [| apply DTWFacts.allocated_full | lia | lia].
    by exists 0%Q.
  - intros M i j Hi Hj HM. apply diagonal_cell; [lia | lia | done].
  - intros M i Hi (Hb & Halloc & Hdiag). split; [done|]. split; [done|].
    intros a Ha Hbefore. apply Hdiag; [done|]. lia.
Qed.
End Diagonal.

(** The last cell under any band that holds it. *)
Lemma last_cell_finite (window_size : option Z) (query reference : list Z) :
  let n := Z.of_nat (length query) in
  let m := Z.of_nat (length reference) in
  let window := band_width window_size n m in
  0 < n → 0 < m → 1 <= window → n - window <= m < n + window →
  is_finite (mget (dtw_table window_size query reference) n m).
Proof.
  intros n m window Hn Hm Hwin Hband. unfold dtw_table. fold n m window.
  destruct (DTWFacts.filled_all query reference window Hwin) as (_ & _ & Hfin).
  apply Hfin; [|fold n; lia]. unfold in_band. fold n m. lia.
Qed.

Lemma distance_of_finite_cell (window_size : option Z) (query reference : list Z) :
  query ≠ [] → reference ≠ [] →
  is_finite (mget (dtw_table window_size query reference)
                  (Z.of_nat (length query)) (Z.of_nat (length reference))) →
  ∃ v, mget (dtw_table window_size query reference)
            (Z.of_nat (length query)) (Z.of_nat (length reference)) = Finite v
       ∧ compute_distance window_size query reference
         = Finite (v / inject_Z (Z.of_nat (length query) + Z.of_nat (length reference))).
Proof.
  intros Hq Hr Hfin.
  assert (0 < Z.of_nat (length query)) by (destruct query; [done | simpl; lia]).
  assert (0 < Z.of_nat (length reference)) by (destruct reference; [done | simpl; lia]).
  destruct (mget _ _ _) as [v|] eqn:E; [|done]. exists v. split; [done|].
  unfold compute_distance.
  replace ((Z.of_nat (length query) =? 0) || (Z.of_nat (length reference) =? 0)) with false
    by (symmetry; rewrite orb_false_iff, !Z.eqb_neq; lia).
  by rewrite E.
Qed.

Lemma self_distance (window_size : option Z) (contour : list Z) :
  holds_diagonal window_size → contour ≠ [] →
  ∃ d, compute_distance window_size contour contour = Finite d ∧ (d == 0)%Q.
Proof.
  intros Hwide Hne.
  assert (0 < Z.of_nat (length contour)) as Hn by (destruct contour; [done | simpl; lia]).
  destruct (diagonal_all window_size contour Hwide Hne (Z.of_nat (length contour)))
    as (v & Hv & Hz); [lia | lia |].
  destruct (distance_of_finite_cell window_size contour contour Hne Hne)
    as (v' & Hv' & ->); [by rewrite Hv|].
  rewrite Hv in Hv'. injection Hv' as <-.
  eexists. split; [reflexivity|]. rewrite Hz. unfold Qdiv. apply Qmult_0_l.
Qed.

End DTWMore.

(** X1: the distance of a non-empty contour to itself is 0, under the
    window size 50 of the humming matcher, under any window size of at
    least 1, and without a window. *)
Theorem distance_to_itself (window_size : option Z) (contour : list Z) :
  holds_diagonal window_size → contour ≠ [] →
  ∃ d, DTWMatcher.compute_distance window_size contour contour = Finite d ∧ (d == 0)%Q.
Proof. apply DTWMore.self_distance. Qed.

Lemma distance_to_itself_witness :
  ∃ d, DTWMatcher.compute_distance (Some 50) [1; 1; 0; -1] [1; 1; 0; -1] = Finite d
       ∧ (d == 0)%Q.
Proof.
  apply (distance_to_itself (Some 50) [1; 1; 0; -1]).
  - simpl. lia.
  - discriminate.
Defined.

(** X2: a matcher built without a window size (the default of the
    constructor) gives every pair of non-empty contours a finite
    distance, between 0 and 2. *)
Theorem distance_without_window (query reference : list Z) :
  query ≠ [] → reference ≠ [] →
  ∃ d, DTWMatcher.compute_distance None query reference = Finite d ∧ (0 <= d <= 2)%Q.
Proof.
  intros Hq Hr.
  assert (0 < Z.of_nat (length query)) as Hn by (destruct query; [done | simpl; lia]).
  assert (0 < Z.of_nat (length reference)) as Hm by (destruct reference; [done | simpl; lia]).
  destruct (DTWMore.distance_of_finite_cell None query reference Hq Hr) as (v & _ & E).
  { apply DTWMore.last_cell_finite; simpl; lia. }
  eexists. split; [exact E|]. by eapply DTWFacts.compute_distance_finite_range.
Qed.

Lemma distance_without_window_witness :
  ∃ d, DTWMatcher.compute_distance None [1] (replicate 51 1) = Finite d
       ∧ (0 <= d <= 2)%Q.
Proof.
  apply (distance_without_window [1] (replicate 51 1)); discriminate.
Defined.

(** ** More on the contour extractor *)

Module ContourMore.
Import ContourExtractor.

Lemma classify_value (self : params) (d : Q) : contour_value (classify self d).
Proof.
  unfold classify, contour_value.
  destruct (Qlt_bool d _); [auto|]. destruct (Qlt_bool _ d); auto.
Qed.

(** The merge loop only repeats values it has been given. *)
Lemma elem_of_merge_step (min_duration : Z) (result segment : list Z) (x : Z) :
  x ∈ merge_step min_duration result segment → x ∈ result ∨ x ∈ segment.
Proof.
  unfold merge_step. destruct (_ <=? _); [by rewrite elem_of_app|].
  destruct (last result) as [prev|] eqn:E; rewrite elem_of_app; [|done].
  intros [? | Hx]; [by left|]. apply elem_of_replicate in Hx as [-> _].
  left. apply last_Some in E as [l' ->]. apply elem_of_app. right. left.
Qed.

Lemma elem_of_merge_loop (min_duration : Z) (segments : list (list Z)) (result : list Z) (x : Z) :
  x ∈ foldl (merge_step min_duration) result segments → x ∈ result ∨ x ∈ concat segments.
Proof.
  revert result. induction segments as [|seg segments IH]; intros result; simpl; [auto|].
  intros Hx. apply IH in Hx as [Hx | Hx].
  - apply elem_of_merge_step in Hx as [? | ?]; [by left|]. right. apply elem_of_app. by left.
  - right. apply elem_of_app. by right.
Qed.

Lemma elem_of_smooth_contour (contour : list Z) (min_duration : Z) (x : Z) :
  x ∈ _smooth_contour contour min_duration → x ∈ contour.
Proof.
  unfold _smooth_contour. destruct (_ <? _); [done|].
  intros Hx. apply elem_of_merge_loop in Hx as [Hx | Hx]; [by apply elem_of_nil in Hx|].
  unfold np_split, np_where in Hx.
  rewrite ContourFacts.concat_split_from in Hx; [done | lia |].
  apply ContourFacts.increasing_where_from. lia.
Qed.

(** *** The segments are the runs *)

Lemma int8_wrap_diff (x y : Z) :
  is_int8 x → is_int8 y → negb (int8_wrap (y - x) =? 0) = negb (x =? y).
Proof.
  unfold is_int8, int8_wrap. intros Hx Hy. f_equal.
  destruct (Z.eqb_spec x y) as [-> | Hne].
  - replace (y - y + 128) with 128 by lia. reflexivity.
  - apply Z.eqb_neq. intros H.
    assert ((y - x + 128) mod 256 = 128) as Hmod by lia.
    destruct (Z.le_gt_cases 0 (y - x + 128)) as [Hpos | Hneg].
    + destruct (Z.lt_ge_cases (y - x + 128) 256) as [Hlt | Hge].
      * rewrite Z.mod_small in Hmod by lia. lia.
      * replace (y - x + 128) with ((y - x - 128) + 1 * 256) in Hmod by lia.
        rewrite Z.mod_add in Hmod by lia. rewrite Z.mod_small in Hmod by lia. lia.
    + replace (y - x + 128) with ((y - x + 384) + (-1) * 256) in Hmod by lia.
      rewrite Z.mod_add in Hmod by lia. rewrite Z.mod_small in Hmod by lia. lia.
Qed.

Lemma split_runs (rest pre cur : list Z) (x : Z) :
  Forall is_int8 (x :: rest) →
  split_from (Z.of_nat (length pre)) (pre ++ cur ++ x :: rest)
    (map (λ i, i + 1)
         (where_from (Z.of_nat (length pre + length cur)) (change_mask (x :: rest))))
  = runs_from cur x rest.
Proof.
  revert pre cur x. induction rest as [|y rest IH]; intros pre cur x Hint.
  - simpl. rewrite Nat2Z.id, drop_app_length. done.
  - apply Forall_cons in Hint as [Hx Hint]. pose proof Hint as [Hy _]%Forall_cons.
    unfold change_mask, np_diff_int8. simpl.
    fold (np_diff_int8 (y :: rest)). fold (change_mask (y :: rest)).
    rewrite (int8_wrap_diff x y Hx Hy).
    destruct (Z.eqb_spec x y) as [-> | Hne]; simpl.
    + specialize (IH pre (cur ++ [y]) y Hint).
      rewrite length_app in IH. simpl in IH.
      replace (Z.of_nat (length pre + (length cur + 1)))
        with (Z.of_nat (length pre + length cur) + 1) in IH by lia.
      rewrite <- IH. f_equal. by rewrite <- !app_assoc.
    + f_equal.
      * unfold slice. rewrite Nat2Z.id, drop_app_length.
        replace (Z.to_nat (Z.of_nat (length pre + length cur) + 1 - Z.of_nat (length pre)))
          with (length (cur ++ [x])) by (rewrite length_app; simpl; lia).
        replace (cur ++ x :: y :: rest) with ((cur ++ [x]) ++ y :: rest)
          by by rewrite <- app_assoc.
        by rewrite take_app_length.
      * specialize (IH (pre ++ cur ++ [x]) [] y Hint).
        rewrite !length_app in IH. simpl in IH.
        replace (Z.of_nat (length pre + (length cur + 1)))
          with (Z.of_nat (length pre + length cur) + 1) in IH by lia.
        replace (Z.of_nat (length pre + (length cur + 1) + 0))
          with (Z.of_nat (length pre + length cur) + 1) in IH by lia.
        rewrite <- IH. f_equal. by rewrite <- !app_assoc.
Qed.

Lemma smooth_contour_runs (x : Z) (rest : list Z) (min_duration : Z) :
  Forall is_int8 (x :: rest) →
  _smooth_contour (x :: rest) min_duration =
    if Z.of_nat (length (x :: rest)) <? min_duration then x :: rest
    else foldl (merge_step min_duration) [] (runs_from [] x rest).
Proof.
  intros Hint. unfold _smooth_contour. destruct (_ <? _); [done|].
  f_equal. unfold np_split, np_where.
  exact (split_runs rest [] [] x Hint).
Qed.

(** *** Runs after the merge *)

Lemma settled_app_replicate (result : list Z) (k : nat) (v : Z) :
  settled result →
  (2 <= k)%nat ∨ last result = Some v ∨ result = [] →
  settled (result ++ replicate k v).
Proof.
  intros Hres Hcase t a b Ha Hb Hab.
  destruct (decide (S t < length result)%nat) as [Hin | Hout].
  - rewrite lookup_app_l in Ha by lia. rewrite lookup_app_l in Hb by lia.
    apply lookup_app_l_Some. by eapply Hres.
  - destruct (decide (S t = length result)) as [Hjoin | Hlate].
    + rewrite lookup_app_l in Ha by lia. rewrite lookup_app_r in Hb by lia.
      apply lookup_replicate in Hb as [-> Hk].
      destruct Hcase as [Hlong | [Hlast | ->]]; [| |simpl in Hjoin; lia].
      * rewrite lookup_app_r by lia. apply lookup_replicate. split; [done | lia].
      * rewrite last_lookup in Hlast.
        replace (Nat.pred (length result)) with t in Hlast by lia. congruence.
    + rewrite lookup_app_r in Ha by lia. rewrite lookup_app_r in Hb by lia.
      apply lookup_replicate in Ha as [-> _]. apply lookup_replicate in Hb as [-> _]. done.
Qed.

Lemma settled_nil : settled [].
Proof. intros t a b Ha. done. Qed.

Lemma settled_merge_step (result : list Z) (k : nat) (v : Z) :
  settled result → settled (merge_step 2 result (replicate k v)).
Proof.
  intros Hres. unfold merge_step. rewrite length_replicate.
  destruct (Z.leb_spec 2 (Z.of_nat k)) as [Hlong | Hshort].
  - apply settled_app_replicate; [done|]. left. lia.
  - destruct (last result) as [prev|] eqn:E.
    + apply settled_app_replicate; [done|]. by right; left.
    + apply settled_app_replicate; [done|]. right; right. by apply last_None.
Qed.

Lemma settled_merge_runs (rest : list Z) (result : list Z) (k : nat) (x : Z) :
  settled result →
  settled (foldl (merge_step 2) result (runs_from (replicate k x) x rest)).
Proof.
  revert result k x. induction rest as [|y rest IH]; intros result k x Hres; simpl.
  - replace (replicate k x ++ [x]) with (replicate (S k) x)
      by (by rewrite replicate_S_end).
    by apply settled_merge_step.
  - replace (replicate k x ++ [x]) with (replicate (S k) x)
      by (by rewrite replicate_S_end).
    destruct (Z.eqb_spec x y) as [-> | Hne].
    + exact (IH result (S k) y Hres).
    + simpl. apply (IH _ 0%nat). by apply (settled_merge_step result (S k) x).
Qed.

(** *** A settled contour is left as it is *)

Lemma settled_junction (result tail : list Z) (z x : Z) :
  last result = Some z → z ≠ x → settled (result ++ x :: tail) → head tail = Some x.
Proof.
  intros Hz Hzx Hset. rewrite last_lookup in Hz.
  assert (length result ≠ 0%nat) as Hlen by (destruct result; [done | simpl; lia]).
  specialize (Hset (Nat.pred (length result)) z x).
  rewrite lookup_app_l in Hset by lia.
  replace (S (Nat.pred (length result))) with (length result) in Hset by lia.
  rewrite list_lookup_middle in Hset by done.
  specialize (Hset Hz eq_refl Hzx).
  rewrite lookup_app_r in Hset by lia.
  replace (S (length result) - length result)%nat with 1%nat in Hset by lia.
  simpl in Hset. by destruct tail.
Qed.

(** The run [replicate k x ++ [x]] is kept by the merge when the contour
    that holds it is settled. *)
Lemma merge_step_settled_run (result tail : list Z) (k : nat) (x : Z) :
  (result = [] ∨ ∃ z, last result = Some z ∧ z ≠ x) →
  head tail ≠ Some x →
  settled (result ++ replicate k x ++ x :: tail) →
  merge_step 2 result (replicate k x ++ [x]) = result ++ replicate k x ++ [x].
Proof.
  intros Hlast Hhead Hset. unfold merge_step. rewrite length_app, length_replicate. simpl.
  destruct (Z.leb_spec 2 (Z.of_nat (k + 1))) as [Hlong | Hshort]; [done|].
  assert (k = 0%nat) as -> by lia. simpl in *.
  destruct Hlast as [-> | (z & Hz & Hzx)]; [done|].
  exfalso. apply Hhead. by eapply settled_junction.
Qed.

Lemma merge_runs_settled (rest : list Z) (result : list Z) (k : nat) (x : Z) :
  (result = [] ∨ ∃ z, last result = Some z ∧ z ≠ x) →
  settled (result ++ replicate k x ++ x :: rest) →
  foldl (merge_step 2) result (runs_from (replicate k x) x rest)
  = result ++ replicate k x ++ x :: rest.
Proof.
  revert result k x. induction rest as [|y rest IH]; intros result k x Hlast Hset.
  - simpl. by apply (merge_step_settled_run result [] k x).
  - simpl. destruct (Z.eqb_spec x y) as [-> | Hne].
    + replace (replicate k y ++ [y]) with (replicate (S k) y)
        by (by rewrite replicate_S_end).
      rewrite (IH result (S k) y Hlast).
      * f_equal. by rewrite replicate_S_end, <- app_assoc.
      * replace (replicate (S k) y ++ y :: rest) with (replicate k y ++ y :: y :: rest); [done|].
        by rewrite replicate_S_end, <- app_assoc.
    + simpl. rewrite (merge_step_settled_run result (y :: rest) k x Hlast);
        [| simpl; congruence | done].
      pose proof (IH (result ++ replicate k x ++ [x]) 0%nat y) as Hrest.
      simpl in Hrest. rewrite Hrest.
      * by rewrite <- !app_assoc.
      * right. exists x. split; [|done]. by rewrite !app_assoc, last_snoc.
      * by rewrite <- !app_assoc.
Qed.

End ContourMore.

Module ContourRuns.
Import ContourExtractor.

Lemma settled_short (c : list Z) : (length c < 2)%nat → settled c.
Proof.
  intros Hlen k a b Ha Hb. apply lookup_lt_Some in Hb. lia.
Qed.

Lemma smooth_contour_settled (c : list Z) :
  Forall is_int8 c → settled (_smooth_contour c 2).
Proof.
  intros Hint. destruct c as [|x rest]; [apply ContourMore.settled_nil|].
  rewrite ContourMore.smooth_contour_runs by done.
  destruct (Z.ltb_spec (Z.of_nat (length (x :: rest))) 2) as [Hshort | Hlong].
  - apply settled_short. lia.
  - apply (ContourMore.settled_merge_runs rest [] 0%nat x), ContourMore.settled_nil.
Qed.

Lemma smooth_contour_fixed (c : list Z) :
  Forall is_int8 c → settled c → _smooth_contour c 2 = c.
Proof.
  intros Hint Hset. destruct c as [|x rest]; [done|].
  rewrite ContourMore.smooth_contour_runs by done.
  destruct (_ <? _); [done|].
  apply (ContourMore.merge_runs_settled rest [] 0%nat x); [by left | done].
Qed.

Lemma smooth_contour_int8 (c : list Z) (min_duration : Z) :
  Forall is_int8 c → Forall is_int8 (_smooth_contour c min_duration).
Proof.
  intros Hint. apply Forall_forall. intros x Hx.
  apply ContourMore.elem_of_smooth_contour in Hx.
  by eapply (proj1 (Forall_forall _ _) Hint).
Qed.

Lemma contour_value_int8 (a : Z) : contour_value a → is_int8 a.
Proof. unfold contour_value, is_int8. lia. Qed.

Lemma extract_contour_values (self : params) (pitch : list (option Q)) (contour : list Z) :
  extract_contour self pitch = Ok contour → Forall contour_value contour.
Proof.
  unfold extract_contour. destruct (_ <? _)%nat; [by intros [= <-]|].
  destruct (_smooth_pitch self _) as [smooth|]; simpl; [|done].
  intros [= <-]. apply Forall_forall. intros x Hx.
  apply ContourMore.elem_of_smooth_contour in Hx.
  apply list_elem_of_In, in_map_iff in Hx as (d & <- & _).
  apply ContourMore.classify_value.
Qed.

Lemma extract_contour_settled (self : params) (pitch : list (option Q)) (contour : list Z) :
  extract_contour self pitch = Ok contour → settled contour.
Proof.
  unfold extract_contour. destruct (_ <? _)%nat; [intros [= <-]; apply ContourMore.settled_nil|].
  destruct (_smooth_pitch self _) as [smooth|]; simpl; [|done].
  intros [= <-]. apply smooth_contour_settled.
  apply Forall_forall. intros x Hx.
  apply list_elem_of_In, in_map_iff in Hx as (d & <- & _).
  apply contour_value_int8, ContourMore.classify_value.
Qed.

End ContourRuns.

(** X3: every element of a contour returned by [extract_contour] is -1,
    0 or +1. *)
Theorem extract_contour_ternary (self : ContourExtractor.params)
    (pitch : list (option Q)) (contour : list Z) :
  ContourExtractor.extract_contour self pitch = Ok contour →
  Forall contour_value contour.
Proof. apply ContourRuns.extract_contour_values. Qed.

Lemma extract_contour_ternary_witness :
  Forall contour_value [1; 1; 1; -1; -1].
Proof.
  apply (extract_contour_ternary ContourExtractor.defaults Demo.hum_pitch).
  reflexivity.
Defined.

(** X4: after the run merge with the minimum duration 2, every change
    of value in a contour is followed by a second frame of the new value,
    so that only the first run can be a single frame; this holds of
    [_smooth_contour] on every [int8] contour and of every contour
    returned by [extract_contour]. *)
Theorem smooth_contour_no_short_run :
  (∀ c : list Z, Forall is_int8 c → settled (ContourExtractor._smooth_contour c 2)) ∧
  (∀ (self : ContourExtractor.params) (pitch : list (option Q)) (contour : list Z),
     ContourExtractor.extract_contour self pitch = Ok contour → settled contour).
Proof.
  split.
  - apply ContourRuns.smooth_contour_settled.
  - apply ContourRuns.extract_contour_settled.
Qed.

Lemma smooth_contour_no_short_run_witness :
  settled (ContourExtractor._smooth_contour [1; 0; 0; 1; -1; -1; 0] 2).
Proof.
  apply (proj1 smooth_contour_no_short_run [1; 0; 0; 1; -1; -1; 0]).
  repeat constructor; unfold is_int8; lia.
Defined.

(** X5: the run merge with the minimum duration 2 is idempotent on
    [int8] contours: merging the runs of a merged contour changes
    nothing. *)
Theorem smooth_contour_idempotent (c : list Z) :
  Forall is_int8 c →
  ContourExtractor._smooth_contour (ContourExtractor._smooth_contour c 2) 2
  = ContourExtractor._smooth_contour c 2.
Proof.
  intros Hint. apply ContourRuns.smooth_contour_fixed.
  - by apply ContourRuns.smooth_contour_int8.
  - by apply ContourRuns.smooth_contour_settled.
Qed.

Lemma smooth_contour_idempotent_witness :
  ContourExtractor._smooth_contour
    (ContourExtractor._smooth_contour [1; 0; 0; 1; -1; -1; 0] 2) 2
  = ContourExtractor._smooth_contour [1; 0; 0; 1; -1; -1; 0] 2.
Proof.
  apply (smooth_contour_idempotent [1; 0; 0; 1; -1; -1; 0]).
  repeat constructor; unfold is_int8; lia.
Defined.

Module ContourEdge.
Import ContourExtractor.




End ContourEdge.


(** ** More on the pitch cleaning stages *)

Module PitchMore.
Import PitchExtractor.

Section Values.
Variables (pitch : list (option Q)) (max_gap : Z).

Local Abbreviation nans_idx := (np_where (map isnan pitch)).
Local Abbreviation not_nans_idx := (np_where (map negb (map isnan pitch))).

(** One step of the loop, with the value that it writes. *)
Lemma interpolate_step_value (cur : list (option Q)) (i : Z) :
  0 <= i < Z.of_nat (length nans_idx) →
  interpolate_step max_gap nans_idx not_nans_idx cur i = cur ∨
  ∃ k p nx,
    interpolate_step max_gap nans_idx not_nans_idx cur i
    = <[Z.to_nat k := np_interp k p nx (zget None cur p) (zget None cur nx)]> cur
    ∧ 0 <= k ∧ pitch !! Z.to_nat k = Some None
    ∧ nearest_valid pitch k p nx
    ∧ nx - p <= max_gap.
Proof.
  intros Hi. unfold interpolate_step.
  destruct (_ || _); [by left|].
  set (k := zget 0 nans_idx i).
  assert (k ∈ nans_idx) as Hk by by apply PitchFacts.zget_elem_of.
  apply PitchFacts.elem_of_nans_idx in Hk as [Hk0 Hknan].
  destruct (last _) as [p|] eqn:Hp; [|by left].
  destruct (head _) as [nx|] eqn:Hnx; [|by left].
  destruct (Z.leb_spec (nx - p) max_gap) as [Hgap | Hgap]; [|by left].
  apply PitchFacts.last_filter_below in Hp as (Hp & Hpk & Hmax);
    [|apply PitchFacts.where_from_sorted].
  apply PitchFacts.head_filter_above in Hnx as (Hnx & Hkn & Hmin);
    [|apply PitchFacts.where_from_sorted].
  right. exists k, p, nx. split; [reflexivity|]. repeat split; done.
Qed.

Lemma interpolated_valid (cur : list (option Q)) (q : Z) :
  interpolated pitch max_gap cur → q ∈ not_nans_idx →
  ∃ y, pitch !! Z.to_nat q = Some (Some y) ∧ zget None cur q = Some y.
Proof.
  intros [_ Hcur] Hq. apply PitchFacts.elem_of_not_nans_idx in Hq as [Hq0 [y Hy]].
  exists y. split; [done|]. unfold zget.
  destruct (Hcur (Z.to_nat q)) as [-> | [Hnan _]]; [by rewrite Hy | congruence].
Qed.

Lemma interpolated_result : interpolated pitch max_gap (_interpolate_gaps pitch max_gap).
Proof.
  unfold _interpolate_gaps.
  assert (interpolated pitch max_gap pitch) as Hinit by (split; [done | by left]).
  destruct (negb _); [done|]. destruct (_ <? _)%nat; [done|].
  apply foldl_invariant; [done|].
  intros cur i Hi Hcur. apply elem_of_range in Hi.
  destruct (interpolate_step_value cur i ltac:(lia)) as [-> | Hwrite]; [done|].
  destruct Hwrite as (k & p & nx & -> & Hk0 & Hknan & Hnear & Hgap).
  pose proof Hnear as (Hp & Hnx & _).
  destruct (interpolated_valid cur p Hcur Hp) as (yp & Hyp & ->).
  destruct (interpolated_valid cur nx Hcur Hnx) as (yn & Hyn & ->).
  destruct Hcur as [Hlen Hcur].
  split; [by rewrite length_insert|].
  intros k'. destruct (decide (Z.to_nat k = k')) as [<- | Hkk].
  - right. split; [done|]. exists p, nx, yp, yn. rewrite Z2Nat.id by done.
    split; [done|]. split; [done|]. split; [done|]. split; [done|].
    apply list_lookup_insert_eq. apply lookup_lt_Some in Hknan. lia.
  - rewrite list_lookup_insert_ne by done. apply Hcur.
Qed.
End Values.

(** Linear interpolation stays between the two values it joins. *)
Lemma np_interp_between (k p nx : Z) (yp yn v : Q) :
  p < k < nx → np_interp k p nx (Some yp) (Some yn) = Some v →
  (v == yp + (yn - yp) * inject_Z (k - p) / inject_Z (nx - p))%Q
  ∧ ((yp <= v <= yn)%Q ∨ (yn <= v <= yp)%Q).
Proof.
  intros Hk. unfold np_interp. intros [= <-]. rewrite Qred_correct.
  assert (0 < inject_Z (k - p))%Q as Hd
    by (change 0%Q with (inject_Z 0); rewrite <- Zlt_Qlt; lia).
  assert (inject_Z (k - p) < inject_Z (nx - p))%Q as HD by (rewrite <- Zlt_Qlt; lia).
  set (d := inject_Z (k - p)) in *. set (D := inject_Z (nx - p)) in *.
  assert ((yn - yp) / D * d + yp == yp + (yn - yp) * d / D)%Q as Heq by (field; lra).
  split; [exact Heq|]. rewrite Heq.
  assert (0 <= d / D <= 1)%Q as [Ht0 Ht1].
  { split; [apply Qle_shift_div_l; lra | apply Qle_shift_div_r; lra]. }
  assert ((yn - yp) * d / D == (yn - yp) * (d / D))%Q as -> by (field; lra).
  set (t := (d / D)%Q) in *.
  destruct (Qlt_le_dec yn yp) as [Hlt | Hle].
  - right. split; nra.
  - left. split; nra.
Qed.

(** The values that the median filter can produce. *)
Lemma insert_by_perm_q (x : Q) (l : list Q) : insert_by Qlt_bool x l ≡ₚ x :: l.
Proof. apply RankFacts.insert_by_perm. Qed.

Lemma medfilt_at_value (volume : list Q) (kernel_size k : Z) :
  medfilt_at volume kernel_size k ∈ volume ∨ medfilt_at volume kernel_size k = 0%Q.
Proof.
  unfold medfilt_at, zget.
  destruct (sort_by Qlt_bool _ !! _) as [x|] eqn:E; simpl; [|by right].
  apply list_elem_of_lookup_2 in E. rewrite RankFacts.sort_by_perm in E.
  apply list_elem_of_In, in_map_iff in E as (d & <- & _).
  unfold padded. destruct (_ && _) eqn:Ein; [|by right].
  unfold zget. destruct (volume !! _) as [y|] eqn:Ey; simpl; [|by right].
  left. by eapply list_elem_of_lookup_2.
Qed.

Lemma medfilt_ok (volume : list Q) (kernel_size : Z) :
  kernel_size mod 2 = 1 → 0 < kernel_size →
  medfilt volume kernel_size
  = Ok (map (medfilt_at volume kernel_size) (range 0 (Z.of_nat (length volume)))).
Proof.
  intros Hodd Hpos. unfold medfilt. rewrite Hodd. simpl.
  by destruct (Z.ltb_spec kernel_size 0); [lia|].
Qed.

Lemma assign_valid_mask (pitch : list (option Q)) (values : list Q) :
  map isnan (assign_valid pitch values) = map isnan pitch.
Proof.
  revert values. induction pitch as [|[x|] pitch IH]; intros values; simpl; [done| |].
  - destruct values; simpl; by rewrite IH.
  - by rewrite IH.
Qed.

Lemma assign_valid_value (pitch : list (option Q)) (values : list Q) (k : nat) (x : Q) :
  assign_valid pitch values !! k = Some (Some x) →
  x ∈ values ∨ pitch !! k = Some (Some x).
Proof.
  revert values k. induction pitch as [|[y|] pitch IH]; intros values k; simpl; [done| |].
  - destruct values as [|v vs]; destruct k as [|k]; simpl.
    + intros [= <-]. by right.
    + intros H. apply IH in H as [H | H]; [by left | by right].
    + intros [= <-]. left. left.
    + intros H. apply IH in H as [H | H]; [left; by right | by right].
  - destruct k as [|k]; simpl; [done|]. apply IH.
Qed.

Lemma valid_values_lookup (pitch : list (option Q)) (k : nat) (x : Q) :
  pitch !! k = Some (Some x) → x ∈ valid_values pitch.
Proof.
  intros H. unfold valid_values. apply list_elem_of_omap.
  exists (Some x). split; [by eapply list_elem_of_lookup_2 | done].
Qed.

Lemma valid_values_rejected (l : list (option Q)) :
  Forall (λ x, x = None) l → l = replicate (length l) None.
Proof. induction 1 as [|x l -> _ IH]; simpl; [done | by rewrite <- IH]. Qed.

End PitchMore.

(** X7: the gap interpolation keeps the length of the pitch sequence and
    every valid frame with its value; only missing frames can change. *)
Theorem interpolate_gaps_preserves (pitch : list (option Q)) (max_gap : Z) :
  length (PitchExtractor._interpolate_gaps pitch max_gap) = length pitch ∧
  ∀ (k : nat) (x : Q), pitch !! k = Some (Some x) →
    PitchExtractor._interpolate_gaps pitch max_gap !! k = Some (Some x).
Proof. apply PitchFacts.interpolate_gaps_keeps_valid. Qed.

Lemma interpolate_gaps_preserves_witness :
  PitchExtractor._interpolate_gaps
    [None; Some 100%Q; None; None; None; Some 200%Q; None] 5 !! 5%nat
  = Some (Some 200%Q).
Proof.
  apply (proj2 (interpolate_gaps_preserves
                  [None; Some 100%Q; None; None; None; Some 200%Q; None] 5) 5%nat 200%Q).
  reflexivity.
Defined.

(** X8: a missing frame stays missing when no valid frame comes before
    it, or none after it, or when it lies in a stretch of missing frames,
    strictly between the frames [p] and [nx], of [max_gap] frames or more
    (so a run of exactly [max_gap] frames is not filled either). *)
Theorem interpolate_gaps_leaves_missing (pitch : list (option Q)) (max_gap : Z) (k : nat) :
  pitch !! k = Some None →
  (∀ j : nat, (j < k)%nat → ∀ x, pitch !! j ≠ Some (Some x))
  ∨ (∀ j : nat, (k < j)%nat → ∀ x, pitch !! j ≠ Some (Some x))
  ∨ (∃ p nx : nat, (p < k < nx)%nat
       ∧ (∀ j : nat, (p < j < nx)%nat → pitch !! j = Some None)
       ∧ max_gap <= Z.of_nat (nx - p - 1)) →
  PitchExtractor._interpolate_gaps pitch max_gap !! k = Some None.
Proof. apply PitchFacts.interpolate_gaps_keeps_missing. Qed.

Lemma interpolate_gaps_leaves_missing_witness :
  PitchExtractor._interpolate_gaps
    [None; Some 100%Q; None; None; None; None; None; Some 200%Q; None; Some 100%Q; None] 5
    !! 4%nat = Some None.
Proof.
  apply (interpolate_gaps_leaves_missing
           [None; Some 100%Q; None; None; None; None; None; Some 200%Q; None; Some 100%Q; None]
           5 4).
  - reflexivity.
  - right. right. exists 1%nat, 7%nat. split; [lia|]. split.
    + intros j Hj.
      destruct j as [|[|[|[|[|[|[|j]]]]]]]; try lia; reflexivity.
    + simpl. lia.
Defined.

(** X9: a missing frame that the gap interpolation fills lies between
    two valid frames [p] and [nx] with only missing frames between them
    and at most [max_gap] apart, and its new value lies between the
    values of these two frames. *)
Theorem interpolate_gaps_filled_value (pitch : list (option Q)) (max_gap : Z)
    (k : nat) (v : Q) :
  pitch !! k = Some None →
  PitchExtractor._interpolate_gaps pitch max_gap !! k = Some (Some v) →
  ∃ (p nx : nat) (yp yn : Q),
    (p < k < nx)%nat
    ∧ pitch !! p = Some (Some yp) ∧ pitch !! nx = Some (Some yn)
    ∧ (∀ j : nat, (p < j < nx)%nat → pitch !! j = Some None)
    ∧ Z.of_nat nx - Z.of_nat p <= max_gap
    ∧ ((yp <= v <= yn)%Q ∨ (yn <= v <= yp)%Q).
Proof.
  intros Hnan Hfilled.
  destruct (PitchMore.interpolated_result pitch max_gap) as [_ Hcur].
  destruct (Hcur k) as [Heq | (_ & p & nx & yp & yn & Hnear & Hyp & Hyn & Hgap & Hv)];
    [congruence|].
  destruct Hnear as (Hp & Hnx & Hpk & Hmax & Hmin).
  pose proof Hp as [Hp0 _]%PitchFacts.elem_of_not_nans_idx.
  pose proof Hnx as [Hnx0 _]%PitchFacts.elem_of_not_nans_idx.
  assert (PitchExtractor.np_interp (Z.of_nat k) p nx (Some yp) (Some yn) = Some v)
    as Hinterp by congruence.
  destruct (PitchMore.np_interp_between (Z.of_nat k) p nx yp yn v Hpk Hinterp)
    as [_ Hbetween].
  exists (Z.to_nat p), (Z.to_nat nx), yp, yn. rewrite !Z2Nat.id by lia.
  split; [lia|]. split; [done|]. split; [done|]. split; [|by repeat split].
  intros j Hj.
  assert (j < length pitch)%nat as Hlen by (apply lookup_lt_Some in Hyn; lia).
  destruct (pitch !! j) as [[y|]|] eqn:Ej; [| done | apply lookup_ge_None in Ej; lia].
  exfalso.
  assert (Z.of_nat j ∈ np_where (map negb (map PitchExtractor.isnan pitch))) as Hin.
  { apply PitchFacts.elem_of_not_nans_idx. split; [lia|]. exists y. by rewrite Nat2Z.id. }
  destruct (Z.lt_trichotomy (Z.of_nat j) (Z.of_nat k)) as [Hlt | [Heq | Hgt]].
  - specialize (Hmax _ Hin Hlt). lia.
  - assert (j = k) as -> by lia. congruence.
  - specialize (Hmin _ Hin Hgt). lia.
Qed.

Lemma interpolate_gaps_filled_value_witness :
  ∃ (p nx : nat) (yp yn : Q),
    (p < 3 < nx)%nat
    ∧ [None; Some 100%Q; None; None; None; Some 200%Q; None] !! p = Some (Some yp)
    ∧ [None; Some 100%Q; None; None; None; Some 200%Q; None] !! nx = Some (Some yn)
    ∧ (∀ j : nat, (p < j < nx)%nat →
         [None; Some 100%Q; None; None; None; Some 200%Q; None] !! j = Some None)
    ∧ Z.of_nat nx - Z.of_nat p <= 5
    ∧ ((yp <= 150 <= yn)%Q ∨ (yn <= 150 <= yp)%Q).
Proof.
  apply (interpolate_gaps_filled_value
           [None; Some 100%Q; None; None; None; Some 200%Q; None] 5 3 150);
    reflexivity.
Defined.

(** X10: with an odd, positive window the median-filter stage returns a
    sequence with the same length and the same missing frames as its
    input; with an even window and more valid frames than the window,
    it raises the error of the filter. *)
Theorem median_filter_mask (pitch : list (option Q)) (window : Z) :
  (window mod 2 = 1 → 0 < window →
     ∃ filtered, PitchExtractor._median_filter pitch window = Ok filtered
                 ∧ map PitchExtractor.isnan filtered = map PitchExtractor.isnan pitch) ∧
  (window mod 2 = 0 → window < Z.of_nat (length (PitchExtractor.valid_values pitch)) →
     PitchExtractor._median_filter pitch window
     = Raise (ValueError "Each element of kernel_size should be odd.")).
Proof.
  split.
  - intros Hodd Hpos. unfold PitchExtractor._median_filter.
    destruct (_ <? _); [|by eexists].
    rewrite PitchMore.medfilt_ok by done. simpl.
    eexists. split; [reflexivity|]. apply PitchMore.assign_valid_mask.
  - intros Heven Hmore. unfold PitchExtractor._median_filter.
    destruct (Z.ltb_spec window (Z.of_nat (length (PitchExtractor.valid_values pitch))));
      [|lia].
    unfold PitchExtractor.medfilt. by rewrite Heven.
Qed.

Lemma median_filter_mask_witness :
  ∃ filtered,
    PitchExtractor._median_filter
      [Some 100%Q; None; Some 900%Q; Some 100%Q; Some 100%Q; None; Some 100%Q; Some 100%Q] 5
    = Ok filtered
    ∧ map PitchExtractor.isnan filtered = [false; true; false; false; false; true; false; false].
Proof.
  apply (proj1 (median_filter_mask
    [Some 100%Q; None; Some 900%Q; Some 100%Q; Some 100%Q; None; Some 100%Q; Some 100%Q] 5));
    reflexivity.
Defined.

(** X11: the median-filter stage invents no pitch: every valid frame of
    its result holds the value of a valid frame of its input, or the 0 of
    the padding at the two ends. *)
Theorem median_filter_values (pitch filtered : list (option Q)) (window : Z)
    (k : nat) (x : Q) :
  PitchExtractor._median_filter pitch window = Ok filtered →
  filtered !! k = Some (Some x) →
  x ∈ PitchExtractor.valid_values pitch ∨ x = 0%Q.
Proof.
  unfold PitchExtractor._median_filter.
  destruct (_ <? _).
  - unfold PitchExtractor.medfilt. destruct (negb _); simpl; [done|].
    destruct (_ <? _); simpl; [done|]. intros [= <-] Hk.
    apply PitchMore.assign_valid_value in Hk as [Hk | Hk].
    + apply list_elem_of_In, in_map_iff in Hk as (i & <- & _).
      apply PitchMore.medfilt_at_value.
    + left. by eapply PitchMore.valid_values_lookup.
  - intros [= <-] Hk. left. by eapply PitchMore.valid_values_lookup.
Qed.

Lemma median_filter_values_witness :
  100%Q ∈ PitchExtractor.valid_values
    [Some 100%Q; None; Some 900%Q; Some 100%Q; Some 100%Q; None; Some 100%Q; Some 100%Q]
  ∨ 100%Q = 0%Q.
Proof.
  apply (median_filter_values
    [Some 100%Q; None; Some 900%Q; Some 100%Q; Some 100%Q; None; Some 100%Q; Some 100%Q]
    [Some 100%Q; None; Some 100%Q; Some 100%Q; Some 100%Q; None; Some 100%Q; Some 100%Q]
    5 2 100); reflexivity.
Defined.

Module CleanFacts.
Import PitchExtractor.





End CleanFacts.



(** X13: for every window size [w] and every pair of non-empty contours
    of lengths [n] and [m], the distance is infinite exactly when the
    reference is at least as long as the query and [w <= m - n] (in
    particular for equal lengths and [w <= 0]); in every other case it
    is finite and between 0 and 2. *)
Theorem distance_finite_iff (w : Z) (query reference : list Z) :
  query ≠ [] → reference ≠ [] →
  let n := Z.of_nat (length query) in
  let m := Z.of_nat (length reference) in
  (n <= m ∧ w <= m - n →
     DTWMatcher.compute_distance (Some w) query reference = PosInf) ∧
  (m < n ∨ m - n < w →
     ∃ d, DTWMatcher.compute_distance (Some w) query reference = Finite d
          ∧ (0 <= d <= 2)%Q).
Proof.
  intros Hq Hr n m.
  assert (0 < n) as Hn by (subst n; destruct query; [done | simpl; lia]).
  assert (0 < m) as Hm by (subst m; destruct reference; [done | simpl; lia]).
  split.
  - intros [Hnm Hw]. unfold DTWMatcher.compute_distance. fold n m.
    replace ((n =? 0) || (m =? 0)) with false
      by (symmetry; rewrite orb_false_iff, !Z.eqb_neq; lia).
    subst n m. rewrite DTWFacts.dtw_table_last_cell_unwritten by lia. done.
  - intros Hband.
    destruct (DTWMore.distance_of_finite_cell (Some w) query reference Hq Hr) as (v & _ & E).
    { apply DTWMore.last_cell_finite; fold n m; simpl; lia. }
    eexists. split; [exact E|]. by eapply DTWFacts.compute_distance_finite_range.
Qed.

Lemma distance_finite_iff_witness :
  DTWMatcher.compute_distance (Some 0) [1; -1] [1; -1] = PosInf.
Proof.
  refine (proj1 (distance_finite_iff 0 [1; -1] [1; -1] _ _) _).
  - discriminate.
  - discriminate.
  - simpl. lia.
Defined.

(** ** More on the store *)

Module StoreFacts.

Lemma dict_set_keys {V} (d : list (string * V)) (k : string) (v : V) :
  map fst (dict_set d k v)
  = if decide (k ∈ map fst d) then map fst d else map fst d ++ [k].
Proof.
  induction d as [|[k' v'] d IH]; simpl.
  - destruct (decide (k ∈ [])) as [Hin | _]; [by apply elem_of_nil in Hin | done].
  - destruct (String.eqb k' k) eqn:E; simpl.
    + apply String.eqb_eq in E as ->.
      destruct (decide (k ∈ k :: map fst d)) as [_ | Hnin]; [done|].
      exfalso. apply Hnin. left.
    + rewrite IH. apply String.eqb_neq in E.
      destruct (decide (k ∈ map fst d)) as [Hin | Hnin];
        destruct (decide (k ∈ k' :: map fst d)) as [Hin' | Hnin']; try done.
      * exfalso. apply Hnin'. by right.
      * exfalso. apply elem_of_cons in Hin' as [-> | Hin']; done.
Qed.

Lemma dict_set_NoDup {V} (d : list (string * V)) (k : string) (v : V) :
  NoDup (map fst d) → NoDup (map fst (dict_set d k v)).
Proof.
  intros Hd. rewrite dict_set_keys.
  destruct (decide (k ∈ map fst d)) as [Hin | Hin]; [done|].
  apply NoDup_app. split; [done|]. split; [|apply NoDup_singleton].
  intros x Hx Hk. apply list_elem_of_singleton in Hk as ->. done.
Qed.

Lemma elem_of_dict_set {V} (d : list (string * V)) (k k' : string) (v v' : V) :
  (k', v') ∈ dict_set d k v → (k', v') = (k, v) ∨ (k', v') ∈ d.
Proof.
  induction d as [|[k0 v0] d IH]; simpl.
  - intros H. apply list_elem_of_singleton in H. by left.
  - destruct (String.eqb k0 k) eqn:E.
    + apply String.eqb_eq in E as ->.
      intros H. apply elem_of_cons in H as [-> | H]; [by left | right; by right].
    + intros H. apply elem_of_cons in H as [-> | H]; [right; left|].
      apply IH in H as [H | H]; [by left | right; by right].
Qed.

Lemma dict_set_twice {V} (d : list (string * V)) (k : string) (v : V) :
  dict_set (dict_set d k v) k v = dict_set d k v.
Proof.
  induction d as [|[k0 v0] d IH]; simpl.
  - by rewrite String.eqb_refl.
  - destruct (String.eqb k0 k) eqn:E; simpl; rewrite E; [done | by rewrite IH].
Qed.

Lemma keys_consistent_set (db : MelodyDatabase.t) (id : string) (signature : MelodySignature) :
  keys_consistent db → song_id signature = id →
  keys_consistent {| MelodyDatabase.signatures :=
                       dict_set (MelodyDatabase.signatures db) id signature |}.
Proof.
  intros Hdb Hid id' s' Hin. simpl in Hin.
  apply elem_of_dict_set in Hin as [[= -> ->] | Hin]; [done | by apply Hdb].
Qed.

(** What a call of [add_song] or of [load_signature] does to the store. *)
Lemma add_song_store_cases (pyin : string → option Q → result (list PitchExtractor.frame))
    (db : MelodyDatabase.t) (id audio_path : string) (dur : option Q) :
  (MelodyDatabase.add_song pyin db id audio_path dur).1 = db ∨
  ∃ signature,
    MelodyDatabase.add_song pyin db id audio_path dur
    = ({| MelodyDatabase.signatures := dict_set (MelodyDatabase.signatures db) id signature |},
       Ok signature)
    ∧ song_id signature = id.
Proof.
  unfold MelodyDatabase.add_song.
  destruct (PitchExtractor.extract_pitch _ _ _) as [pitch|]; [|by left].
  destruct (ContourExtractor.extract_contour _ _) as [contour|]; [|by left].
  right. by eexists.
Qed.

Lemma load_signature_store_cases (db : MelodyDatabase.t) (id signature_path : string)
    (fs : filesystem) :
  (∃ e, MelodyDatabase.load_signature db id signature_path fs = (db, Raise e)
        ∧ refused fs signature_path e) ∨
  ∃ signature,
    MelodyDatabase.load_signature db id signature_path fs
    = ({| MelodyDatabase.signatures := dict_set (MelodyDatabase.signatures db) id signature |},
       Ok signature)
    ∧ song_id signature = id
    ∧ accepted fs signature_path signature.
Proof.
  unfold MelodyDatabase.load_signature, refused, accepted.
  destruct (fs !! signature_path) as [[[s | d |] | e]|] eqn:Efs; simpl.
  - right. eexists. split; [done|]. split; [done|]. left. by exists s.
  - destruct (get_duration d) as [[q | e]|] eqn:Ed; simpl.
    + right. eexists. split; [done|]. split; [done|]. right. exists d. simpl.
      repeat split; by left.
    + left. exists e. split; [done|]. right. right. right. by exists d.
    + right. eexists. split; [done|]. split; [done|]. right. exists d. simpl.
      repeat split; by right.
  - left. eexists. split; [done|]. right. right. by left.
  - left. exists e. split; [done|]. right. by left.
  - left. eexists. split; [done|]. by left.
Qed.

(** A start-up step that succeeded leaves a file from which the same
    signature is loaded into any store. *)
Lemma load_or_add_again
    (pyin pyin' : string → option Q → result (list PitchExtractor.frame))
    (db db1 db2 : MelodyDatabase.t) (fs fs1 : filesystem)
    (id file_path file_path' : string) (signature : MelodySignature) :
  load_or_add pyin db fs id file_path = (db1, fs1, Ok signature) →
  ∃ db3,
    load_or_add pyin' db2 fs1 id file_path' = (db3, fs1, Ok signature)
    ∧ MelodyDatabase.get_signature db3 id = Some signature
    ∧ (∀ id', id' ≠ id →
         MelodyDatabase.get_signature db3 id' = MelodyDatabase.get_signature db2 id')
    ∧ (db2 = db1 → db3 = db1).
Proof.
  intros Hfirst.
  assert (load_or_add pyin' db2 fs1 id file_path'
          = ({| MelodyDatabase.signatures :=
                  dict_set (MelodyDatabase.signatures db2) id signature |},
             fs1, Ok signature)
          ∧ db1 = {| MelodyDatabase.signatures :=
                       dict_set (MelodyDatabase.signatures db) id signature |})
    as [Hagain Hdb1].
  { revert Hfirst. unfold load_or_add.
    destruct (fs !! signature_path_of id) as [f|] eqn:Efs.
    - unfold MelodyDatabase.load_signature. rewrite Efs.
      destruct f as [p | e]; [|done].
      destruct (from_payload p id) as [s0|] eqn:Ep; [|done].
      intros [= <- <- <-]. rewrite Efs. simpl. by rewrite Ep.
    - unfold MelodyDatabase.add_song.
      destruct (PitchExtractor.extract_pitch _ _ _) as [pitch|]; [|done].
      destruct (ContourExtractor.extract_contour _ _) as [contour|]; [|done].
      intros [= <- <- <-]. unfold save. rewrite lookup_insert_eq.
      unfold MelodyDatabase.load_signature. by rewrite lookup_insert_eq. }
  eexists. split; [exact Hagain|]. unfold MelodyDatabase.get_signature. simpl.
  split; [apply dict_get_set_eq|]. split.
  - intros id' Hne. by apply dict_get_set_ne.
  - intros ->. rewrite Hdb1. simpl. by rewrite dict_set_twice.
Qed.

End StoreFacts.

(** X14: in every store built from the empty one by calls of [add_song]
    and [load_signature], successful or not, no identifier is listed
    twice and every signature carries the identifier it is stored
    under. *)
Theorem reachable_store_invariant
    (pyin : string → option Q → result (list PitchExtractor.frame))
    (db : MelodyDatabase.t) :
  reachable pyin db →
  NoDup (MelodyDatabase.list_songs db) ∧ keys_consistent db.
Proof.
  induction 1 as [| db id audio_path dur _ [Hdup Hkeys]
                  | db id signature_path fs _ [Hdup Hkeys]].
  - split; [constructor|]. intros id s Hin. by apply elem_of_nil in Hin.
  - destruct (StoreFacts.add_song_store_cases pyin db id audio_path dur)
      as [-> | (s & -> & Hid)]; [done|]. simpl. split.
    + by apply StoreFacts.dict_set_NoDup.
    + by apply StoreFacts.keys_consistent_set.
  - destruct (StoreFacts.load_signature_store_cases db id signature_path fs)
      as [(e & -> & _) | (s & -> & Hid & _)]; [done|]. simpl. split.
    + by apply StoreFacts.dict_set_NoDup.
    + by apply StoreFacts.keys_consistent_set.
Qed.

Lemma reachable_store_invariant_witness :
  NoDup (MelodyDatabase.list_songs Demo.catalogue) ∧ keys_consistent Demo.catalogue.
Proof.
  apply (reachable_store_invariant Demo.pyin Demo.catalogue).
  apply (reach_add Demo.pyin Demo.one_song "silent" "silence.wav" (Some 30%Q)).
  apply (reach_add Demo.pyin MelodyDatabase.empty "song" "song.wav" (Some 30%Q)).
  apply reach_empty.
Defined.

(** X15: [load_signature] either raises and leaves the store as it was,
    which happens exactly when there is no file at the path, when the
    file cannot be unpickled, when the payload is neither a signature
    nor a dictionary, or when the dictionary holds a duration that is no
    number; or it returns a signature with the contour, pitch values and
    duration of the record, carrying the loader's identifier and stored
    under it, the other entries being as before. *)
Theorem load_signature_outcomes (db : MelodyDatabase.t) (id signature_path : string)
    (fs : filesystem) :
  match MelodyDatabase.load_signature db id signature_path fs with
  | (db', Raise e) => db' = db ∧ refused fs signature_path e
  | (db', Ok signature) =>
      accepted fs signature_path signature
      ∧ song_id signature = id
      ∧ MelodyDatabase.get_signature db' id = Some signature
      ∧ ∀ id', id' ≠ id →
          MelodyDatabase.get_signature db' id' = MelodyDatabase.get_signature db id'
  end.
Proof.
  destruct (StoreFacts.load_signature_store_cases db id signature_path fs)
    as [(e & -> & Hwhy) | (s & -> & Hid & Hrec)]; [done|].
  split; [done|]. split; [done|]. unfold MelodyDatabase.get_signature. simpl.
  split; [apply dict_get_set_eq | intros id' Hne; by apply dict_get_set_ne].
Qed.

(** X16: a successful [add_song] does not reorder the store: an
    identifier already present keeps its place in [list_songs], a new
    one goes to the end. *)
Theorem add_song_listing
    (pyin : string → option Q → result (list PitchExtractor.frame))
    (db db' : MelodyDatabase.t) (id audio_path : string) (dur : option Q)
    (signature : MelodySignature) :
  MelodyDatabase.add_song pyin db id audio_path dur = (db', Ok signature) →
  MelodyDatabase.list_songs db'
  = if decide (id ∈ MelodyDatabase.list_songs db)
    then MelodyDatabase.list_songs db
    else MelodyDatabase.list_songs db ++ [id].
Proof.
  intros Hadd.
  destruct (StoreFacts.add_song_store_cases pyin db id audio_path dur)
    as [_ | (s & Hs & _)].
  - unfold MelodyDatabase.add_song in Hadd.
    destruct (PitchExtractor.extract_pitch _ _ _) as [pitch|]; [|done].
    destruct (ContourExtractor.extract_contour _ _) as [contour|]; [|done].
    injection Hadd as <- _. apply StoreFacts.dict_set_keys.
  - rewrite Hs in Hadd. injection Hadd as <- _. apply StoreFacts.dict_set_keys.
Qed.

Lemma add_song_listing_witness :
  MelodyDatabase.list_songs Demo.catalogue = ["song"; "silent"].
Proof.
  apply (add_song_listing Demo.pyin Demo.one_song Demo.catalogue "silent" "silence.wav"
           (Some 30%Q) (mkSignature [] (replicate 6 None) "silent" 30)).
  reflexivity.
Defined.

(** X17: once the start-up step has succeeded for a song, by loading its
    signature file or by analysing the audio and saving the signature,
    a start-up step for that song on any store, the empty store of a
    restarted server as well as the store the first step left, finds the
    file and restores the same signature under the song's identifier
    without consulting the decoder or the audio file; the files and the
    other entries of the store stay as they are, and the store the first
    step left is not changed at all. *)
Theorem startup_reuses_signature
    (pyin pyin' : string → option Q → result (list PitchExtractor.frame))
    (db db1 db2 : MelodyDatabase.t) (fs fs1 : filesystem)
    (id file_path file_path' : string) (signature : MelodySignature) :
  load_or_add pyin db fs id file_path = (db1, fs1, Ok signature) →
  ∃ db3,
    load_or_add pyin' db2 fs1 id file_path' = (db3, fs1, Ok signature)
    ∧ MelodyDatabase.get_signature db3 id = Some signature
    ∧ (∀ id', id' ≠ id →
         MelodyDatabase.get_signature db3 id' = MelodyDatabase.get_signature db2 id')
    ∧ (db2 = db1 → db3 = db1).
Proof. apply StoreFacts.load_or_add_again. Qed.

Lemma startup_reuses_signature_witness :
  ∃ db3,
    load_or_add (λ _ _, Raise (LoadError "offline")) MelodyDatabase.empty
      (save (mkSignature [1; 1; 1; -1; -1; -1; -1]
               (map (λ hz, Some (inject_Z hz)) [330; 370; 392; 392; 392; 330; 330; 294])
               "song" 30) (signature_path_of "song") ∅)
      "song" "moved.wav"
    = (db3,
       save (mkSignature [1; 1; 1; -1; -1; -1; -1]
               (map (λ hz, Some (inject_Z hz)) [330; 370; 392; 392; 392; 330; 330; 294])
               "song" 30) (signature_path_of "song") ∅,
       Ok (mkSignature [1; 1; 1; -1; -1; -1; -1]
             (map (λ hz, Some (inject_Z hz)) [330; 370; 392; 392; 392; 330; 330; 294])
             "song" 30))
    ∧ MelodyDatabase.list_songs db3 = ["song"].
Proof.
  destruct (startup_reuses_signature Demo.pyin (λ _ _, Raise (LoadError "offline"))
              MelodyDatabase.empty Demo.one_song MelodyDatabase.empty ∅
              (save (mkSignature [1; 1; 1; -1; -1; -1; -1]
                       (map (λ hz, Some (inject_Z hz))
                            [330; 370; 392; 392; 392; 330; 330; 294])
                       "song" 30) (signature_path_of "song") ∅)
              "song" "song.wav" "moved.wav"
              (mkSignature [1; 1; 1; -1; -1; -1; -1]
                 (map (λ hz, Some (inject_Z hz)) [330; 370; 392; 392; 392; 330; 330; 294])
                 "song" 30))
    as (db3 & Hstep & _).
  - unfold load_or_add. rewrite lookup_empty. reflexivity.
  - exists db3. split; [exact Hstep|].
    unfold load_or_add in Hstep. unfold save in Hstep at 1.
    rewrite lookup_insert_eq in Hstep. by injection Hstep as <-.
Defined.

(** ** More on the humming matcher *)

Module RankMore.
Import HummingMatcher.

Lemma xlt_bool_trans_le (a b c : xfloat) :
  xlt_bool a b = true → xle b c → xlt_bool a c = true.
Proof.
  destruct a, b, c; simpl; try done.
  intros H1 H2. apply Qlt_bool_iff in H1. apply Qlt_bool_iff. lra.
Qed.

Lemma same_distance_not_less (d : xfloat) (x z : string * xfloat) :
  same_distance d x = true → same_distance d z = true → xlt_bool x.2 z.2 = false.
Proof.
  unfold same_distance. rewrite !andb_true_iff, !negb_true_iff.
  intros [Hx1 Hx2] [Hz1 Hz2].
  destruct d as [q|], x.2 as [p|], z.2 as [r|]; simpl in *; try done.
  unfold Qlt_bool in *. rewrite negb_false_iff in *.
  apply Qle_bool_iff in Hx1, Hx2, Hz1, Hz2. apply Qle_bool_iff. lra.
Qed.

Lemma filter_farther (d : xfloat) (x : string * xfloat) (l : list (string * xfloat)) :
  same_distance d x = true →
  Forall (λ z, xlt_bool x.2 z.2 = true) l →
  List.filter (same_distance d) l = [].
Proof.
  intros Hx. induction 1 as [|z l Hz _ IH]; simpl; [done|].
  destruct (same_distance d z) eqn:Ez; [|done].
  rewrite (same_distance_not_less d x z Hx Ez) in Hz. done.
Qed.

(** Insertion puts a result behind the results at its own distance. *)
Lemma filter_insert_by (d : xfloat) (x : string * xfloat) (acc : list (string * xfloat)) :
  StronglySorted dist_le acc →
  List.filter (same_distance d) (insert_by by_distance x acc)
  = List.filter (same_distance d) acc ++ (if same_distance d x then [x] else []).
Proof.
  induction 1 as [|y r Hr IH Hy]; simpl.
  - by destruct (same_distance d x).
  - destruct (by_distance x y) eqn:E.
    + destruct (same_distance d x) eqn:Ex.
      * simpl. rewrite Ex.
        change (if same_distance d y then y :: List.filter (same_distance d) r
                else List.filter (same_distance d) r)
          with (List.filter (same_distance d) (y :: r)).
        rewrite (filter_farther d x (y :: r) Ex); [done|].
        constructor; [done|]. eapply Forall_impl; [exact Hy|].
        intros z Hz. by eapply xlt_bool_trans_le.
      * simpl. rewrite Ex. by rewrite app_nil_r.
    + simpl. rewrite IH. by destruct (same_distance d y).
Qed.

Lemma filter_sort_loop (d : xfloat) (l acc : list (string * xfloat)) :
  StronglySorted dist_le acc →
  List.filter (same_distance d) (foldl (λ acc x, insert_by by_distance x acc) acc l)
  = List.filter (same_distance d) acc ++ List.filter (same_distance d) l.
Proof.
  revert acc. induction l as [|x l IH]; intros acc Hacc; simpl.
  - by rewrite app_nil_r.
  - rewrite IH by by apply RankFacts.insert_by_sorted.
    rewrite filter_insert_by by done. rewrite <- app_assoc. f_equal.
    by destruct (same_distance d x).
Qed.

Lemma filter_sort_by (d : xfloat) (l : list (string * xfloat)) :
  List.filter (same_distance d) (sort_by by_distance l) = List.filter (same_distance d) l.
Proof. unfold sort_by. rewrite filter_sort_loop; [done | constructor]. Qed.

(** The head of the sorted scores is nearest. *)
Lemma sorted_head_least (l : list (string * xfloat)) (x : string * xfloat) :
  x ∈ l → ∃ r rest, sort_by by_distance l = r :: rest ∧ ∀ y, y ∈ l → xle r.2 y.2.
Proof.
  intros Hx. pose proof (RankFacts.sort_by_sorted l) as Hsorted.
  pose proof (RankFacts.sort_by_perm by_distance l) as Hperm.
  destruct (sort_by by_distance l) as [|r rest].
  - rewrite <- Hperm in Hx. by apply elem_of_nil in Hx.
  - exists r, rest. split; [done|]. intros y Hy. rewrite <- Hperm in Hy.
    apply StronglySorted_inv in Hsorted as [_ Hall].
    apply elem_of_cons in Hy as [-> | Hy]; [apply RankFacts.xle_refl|].
    by apply (proj1 (Forall_forall _ _) Hall).
Qed.

Lemma prefix_cons {A} (x : A) (l : list A) (k : Z) :
  1 <= k → ∃ rest, prefix (x :: l) k = x :: rest.
Proof.
  intros Hk. unfold prefix. destruct (Z.leb_spec 0 k); [|lia].
  destruct (Z.to_nat k) as [|k'] eqn:E; [lia|]. simpl. by eexists.
Qed.


Section WithTracker.
Variable pyin : string → option Q → result (list PitchExtractor.frame).

(** The first result is at least as near as every stored entry. *)
Lemma match_humming_head (db : MelodyDatabase.t) (path : string) (top_k : Z)
    (pitch : list (option Q)) (contour : list Z) (id : string) (signature : MelodySignature) :
  PitchExtractor.extract_pitch pyin path None = Ok pitch →
  ContourExtractor.extract_contour ContourExtractor.defaults pitch = Ok contour →
  contour ≠ [] → 1 <= top_k →
  (id, signature) ∈ MelodyDatabase.signatures db →
  ∃ r rest,
    match_humming pyin db path top_k = Ok (r :: rest)
    ∧ r ∈ score_all contour db
    ∧ ∀ id' signature', (id', signature') ∈ MelodyDatabase.signatures db →
        xle r.2 (DTWMatcher.compute_distance (Some 50) contour (pitch_contour signature')).
Proof.
  intros Hp Hc Hne Hk Hin.
  pose proof (MatchFacts.extract_eq pyin path pitch contour Hp Hc) as He.
  rewrite (MatchFacts.match_humming_eq pyin db path top_k pitch contour He).
  destruct contour as [|c contour]; [done|]. simpl Nat.eqb. cbv iota.
  destruct (sorted_head_least (score_all (c :: contour) db)
              (id, DTWMatcher.compute_distance (Some 50) (c :: contour)
                     (pitch_contour signature)))
    as (r & rest & Hsort & Hleast).
  { apply RankFacts.elem_of_score_all. by exists id, signature. }
  rewrite Hsort. destruct (prefix_cons r rest top_k Hk) as [rest' ->].
  exists r, rest'. split; [done|]. split.
  - rewrite <- (RankFacts.sort_by_perm by_distance), Hsort. left.
  - intros id' s' Hin'.
    apply (Hleast (id', DTWMatcher.compute_distance (Some 50) (c :: contour)
                          (pitch_contour s'))).
    apply RankFacts.elem_of_score_all. by exists id', s'.
Qed.
End WithTracker.

End RankMore.

(** X18: when the store is not empty and [top_k] is at least 1, the
    first result of [match_humming] is a best match: it is the score of
    a stored entry and no stored entry is nearer to the query. *)
Theorem match_humming_best_first
    (pyin : string → option Q → result (list PitchExtractor.frame))
    (db : MelodyDatabase.t) (path : string) (top_k : Z)
    (pitch : list (option Q)) (contour : list Z) (id : string) (signature : MelodySignature) :
  PitchExtractor.extract_pitch pyin path None = Ok pitch →
  ContourExtractor.extract_contour ContourExtractor.defaults pitch = Ok contour →
  contour ≠ [] → 1 <= top_k →
  (id, signature) ∈ MelodyDatabase.signatures db →
  ∃ r rest,
    HummingMatcher.match_humming pyin db path top_k = Ok (r :: rest)
    ∧ r ∈ HummingMatcher.score_all contour db
    ∧ ∀ id' signature', (id', signature') ∈ MelodyDatabase.signatures db →
        xle r.2 (DTWMatcher.compute_distance (Some 50) contour (pitch_contour signature')).
Proof. apply RankMore.match_humming_head. Qed.

Lemma match_humming_best_first_witness :
  ∃ r rest,
    HummingMatcher.match_humming Demo.pyin Demo.catalogue "hum.wav" 1 = Ok (r :: rest)
    ∧ r ∈ HummingMatcher.score_all Demo.hum_contour Demo.catalogue
    ∧ ∀ id' signature', (id', signature') ∈ MelodyDatabase.signatures Demo.catalogue →
        xle r.2 (DTWMatcher.compute_distance (Some 50) Demo.hum_contour
                   (pitch_contour signature')).
Proof.
  apply (match_humming_best_first Demo.pyin Demo.catalogue "hum.wav" 1 Demo.hum_pitch
           Demo.hum_contour "silent" (mkSignature [] (replicate 6 None) "silent" 30)).
  - reflexivity.
  - reflexivity.
  - discriminate.
  - lia.
  - right. left.
Defined.

(** X19: the ranking is stable: when [top_k] covers the store, the
    results at any one distance appear in the order of their entries in
    the store. *)
Theorem match_humming_ties_in_store_order
    (pyin : string → option Q → result (list PitchExtractor.frame))
    (db : MelodyDatabase.t) (path : string) (top_k : Z)
    (pitch : list (option Q)) (contour : list Z) (results : list (string * xfloat))
    (d : xfloat) :
  PitchExtractor.extract_pitch pyin path None = Ok pitch →
  ContourExtractor.extract_contour ContourExtractor.defaults pitch = Ok contour →
  Z.of_nat (length (MelodyDatabase.signatures db)) <= top_k →
  HummingMatcher.match_humming pyin db path top_k = Ok results →
  List.filter (same_distance d) results
  = List.filter (same_distance d) (HummingMatcher.score_all contour db).
Proof.
  intros Hp Hc Hk.
  pose proof (MatchFacts.extract_eq pyin path pitch contour Hp Hc) as He.
  rewrite (MatchFacts.match_humming_eq pyin db path top_k pitch contour He).
  destruct (_ =? _)%nat; [done|]. intros [= <-].
  rewrite RankFacts.prefix_all.
  - apply RankMore.filter_sort_by.
  - rewrite RankFacts.sort_by_perm. unfold HummingMatcher.score_all.
    by rewrite length_map.
Qed.

Lemma match_humming_ties_in_store_order_witness :
  List.filter (same_distance PosInf)
    [("song", Finite (0 # 12)); ("silent", PosInf); ("mute", PosInf)]
  = List.filter (same_distance PosInf)
      (HummingMatcher.score_all Demo.hum_contour
         (MelodyDatabase.add_song Demo.pyin Demo.catalogue "mute" "silence.wav"
            (Some 30%Q)).1).
Proof.
  apply (match_humming_ties_in_store_order Demo.pyin
           (MelodyDatabase.add_song Demo.pyin Demo.catalogue "mute" "silence.wav"
              (Some 30%Q)).1
           "hum.wav" 5 Demo.hum_pitch Demo.hum_contour).
  - reflexivity.
  - reflexivity.
  - simpl. lia.
  - reflexivity.
Defined.

Module ReportFacts.
Import HummingMatcher.

Lemma length_valid_values (pitch : list (option Q)) :
  (length (PitchExtractor.valid_values pitch) <= length pitch)%nat.
Proof.
  unfold PitchExtractor.valid_values.
  induction pitch as [|[x|] pitch IH]; cbn; lia.
Qed.

Lemma ratio_bounds (a b : nat) :
  (a <= b)%nat → (0 < b)%nat →
  (0 <= inject_Z (Z.of_nat a) / inject_Z (Z.of_nat b) <= 1)%Q.
Proof.
  intros Hab Hb.
  assert (0 < inject_Z (Z.of_nat b))%Q as HbQ
    by (change 0%Q with (inject_Z 0); rewrite <- Zlt_Qlt; lia).
  assert (0 <= inject_Z (Z.of_nat a))%Q as HaQ
    by (change 0%Q with (inject_Z 0); rewrite <- Zle_Qle; lia).
  assert (inject_Z (Z.of_nat a) <= inject_Z (Z.of_nat b))%Q as HabQ
    by (rewrite <- Zle_Qle; lia).
  split.
  - apply Qle_shift_div_l; [done|]. lra.
  - apply Qle_shift_div_r; [done|]. lra.
Qed.

Lemma length_prefix_le {A} (l : list A) (k : Z) :
  0 <= k → Z.of_nat (length (prefix l k)) <= k.
Proof. intros Hk. rewrite RankFacts.length_prefix by done. lia. Qed.

End ReportFacts.



(** X21: [match_with_details] raises exactly what [match_humming] with
    [top_k = 5] raises, and otherwise reports the results of that call,
    in the same order and with their distances, so at most 5 of them,
    together with a share of valid query frames that lies between 0 and 1
    and a contour length below the pitch length. *)
Theorem match_with_details_report
    (pyin : string → option Q → result (list PitchExtractor.frame))
    (db : MelodyDatabase.t) (path : string) :
  match HummingMatcher.match_humming pyin db path 5 with
  | Raise e => HummingMatcher.match_with_details pyin db path = Raise e
  | Ok results =>
      ∃ det,
        HummingMatcher.match_with_details pyin db path = Ok det
        ∧ map (λ e, (HummingMatcher.m_song_id e, HummingMatcher.m_distance e))
              (HummingMatcher.matches det) = results
        ∧ (length (HummingMatcher.matches det) <= 5)%nat
        ∧ (0 <= HummingMatcher.valid_pitch_ratio (HummingMatcher.query det) <= 1)%Q
        ∧ (HummingMatcher.contour_length (HummingMatcher.query det)
           < HummingMatcher.pitch_length (HummingMatcher.query det))%nat
  end.
Proof.
  unfold HummingMatcher.match_with_details.
  destruct (HummingMatcher.extract pyin path) as [[pitch contour]|] eqn:He.
  - rewrite (MatchFacts.match_humming_eq pyin db path 5 pitch contour He).
    apply MatchFacts.extract_inv in He as [Hp Hc]. simpl.
    destruct contour as [|c contour]; [done|]. simpl.
    eexists. split; [reflexivity|]. simpl.
    destruct (ContourFacts.extract_contour_ok ContourExtractor.defaults pitch)
      as (contour' & Hc' & Hlen); [done|].
    rewrite Hc in Hc'. injection Hc' as <-. simpl in Hlen.
    pose proof (ReportFacts.length_valid_values pitch) as Hvalid.
    split; [|split; [|split]].
    + rewrite map_map. simpl. rewrite <- (map_id (HummingMatcher.prefix _ 5)) at 2.
      apply map_ext. by intros [? ?].
    + rewrite length_map.
      pose proof (ReportFacts.length_prefix_le
                    (sort_by HummingMatcher.by_distance
                       (HummingMatcher.score_all (c :: contour) db)) 5 ltac:(lia)).
      lia.
    + destruct (Nat.ltb_spec 0 (length pitch)); [|lia].
      apply ReportFacts.ratio_bounds; lia.
    + lia.
  - unfold HummingMatcher.match_humming. by rewrite He.
Qed.

(** An empty query contour is reported by both calls as the same error. *)
Example match_with_details_no_melody :
  HummingMatcher.match_with_details Demo.pyin Demo.catalogue "silence.wav"
  = Raise (ValueError "Could not extract valid melody from humming").
Proof. reflexivity. Qed.

(** ** The batch initialisation *)

Module BatchFacts.

Section WithTracker.
Variable pyin : string → option Q → result (list PitchExtractor.frame).

Lemma initialize_step_failed (state : MelodyDatabase.t * list (string * song_info))
    (f : audio_file) :
  analysable pyin f = false → initialize_step pyin state f = state.
Proof.
  intros Hf. destruct state as [db meta]. unfold initialize_step, MelodyDatabase.add_song.
  unfold analysable in Hf. unfold PitchExtractor.extract_pitch.
  destruct (pyin (file_path f) (Some 30%Q)); [done|]. reflexivity.
Qed.

Lemma initialize_step_keys (state : MelodyDatabase.t * list (string * song_info))
    (f : audio_file) :
  map fst state.2 = MelodyDatabase.list_songs state.1 →
  map fst (initialize_step pyin state f).2
  = MelodyDatabase.list_songs (initialize_step pyin state f).1.
Proof.
  destruct state as [db meta]. simpl. intros Hkeys. unfold initialize_step.
  destruct (StoreFacts.add_song_store_cases pyin db (stem f) (file_path f) (Some 30%Q))
    as [Hsame | (s & -> & _)].
  - destruct (MelodyDatabase.add_song _ _ _ _ _) as [db' [s|e]] eqn:E; simpl in *.
    + unfold MelodyDatabase.add_song in E.
      destruct (PitchExtractor.extract_pitch _ _ _) as [pitch|]; [|done].
      destruct (ContourExtractor.extract_contour _ _) as [contour|]; [|done].
      injection E as <- _. unfold MelodyDatabase.list_songs. simpl.
      rewrite !StoreFacts.dict_set_keys, Hkeys. done.
    + by subst db'.
  - unfold MelodyDatabase.list_songs. simpl.
    rewrite !StoreFacts.dict_set_keys, Hkeys. done.
Qed.

Lemma initialize_loop_filter (files : list audio_file)
    (state : MelodyDatabase.t * list (string * song_info)) :
  foldl (initialize_step pyin) state files
  = foldl (initialize_step pyin) state (List.filter (analysable pyin) files).
Proof.
  revert state. induction files as [|f files IH]; intros state; simpl; [done|].
  destruct (analysable pyin f) eqn:Ef; simpl.
  - apply IH.
  - rewrite initialize_step_failed by done. apply IH.
Qed.

Lemma initialize_loop_keys (files : list audio_file)
    (state : MelodyDatabase.t * list (string * song_info)) :
  map fst state.2 = MelodyDatabase.list_songs state.1 →
  map fst (foldl (initialize_step pyin) state files).2
  = MelodyDatabase.list_songs (foldl (initialize_step pyin) state files).1.
Proof.
  revert state. induction files as [|f files IH]; intros state Hkeys; simpl; [done|].
  apply IH. by apply initialize_step_keys.
Qed.
End WithTracker.

End BatchFacts.

(** X22: in the batch initialisation a file that cannot be analysed is
    skipped without any effect: the store and the metadata at the end
    are those of the batch without such files; and the metadata lists
    exactly the songs of the store, in the same order. *)
Theorem initialize_db_skips_failures
    (pyin : string → option Q → result (list PitchExtractor.frame))
    (files : list audio_file) :
  initialize_db pyin files = initialize_db pyin (List.filter (analysable pyin) files)
  ∧ map fst (initialize_db pyin files).2
    = MelodyDatabase.list_songs (initialize_db pyin files).1.
Proof.
  split.
  - apply BatchFacts.initialize_loop_filter.
  - by apply BatchFacts.initialize_loop_keys.
Qed.

(** A folder with a broken file between two good ones. *)
Example initialize_db_broken_file :
  MelodyDatabase.list_songs
    (initialize_db Demo.pyin
       [mkAudioFile "song" "song.wav" "song.wav";
        mkAudioFile "broken" "broken.wav" "broken.wav";
        mkAudioFile "silent" "silence.wav" "silence.wav"]).1
  = ["song"; "silent"].
Proof. reflexivity. Qed.
